(** * apple-mail-mcp: the AppleScript execution engine and the result parser

    A shallow embedding of [run_applescript] and [parse_email_list] from
    [src/apple_mail_mcp/apple_mail_mcp.py], with the properties of the
    specification stated over it.

    - [Py]      the Python [str] primitives the two functions call, and
                [PySpec], what [str.strip] removes;
    - [Parser]  [parse_email_list], dictionaries as [gmap string pyval];
    - [Engine]  [run_applescript] as a program over the asynchronous
                actions it performs, with a sequential semantics (one call
                against an oracle for the interpreter) and an interleaving
                semantics (several calls on one event loop);
    - [Cancellation]  the event loop that can also cancel a call while it
                waits, sleeps or has its interpreter running;
    - [Tools]   what the tools compute around their script: the escaping
                of quotes, the keyword of a thread, the destination of a
                move, [list_accounts] and [get_unread_count] with their
                scripts, the condition of a search. *)

From Stdlib Require Import ZArith NArith Ascii String DecimalString.
From stdpp Require Import gmap strings list.

Local Open Scope N_scope.

(** ** Python strings *)

Module Py.

(** A Python [str] is a sequence of Unicode code points. *)
Abbreviation str := (list N).

(** An ASCII literal of the source, as code points. *)
Definition lit (s : string) : str :=
  (λ a, N_of_ascii a) <$> list_ascii_of_string s.

(** [str.isspace] on one code point: the code points CPython classifies as
    whitespace (those [str.strip()] removes). *)
Definition isspace (c : N) : bool :=
  ((0x09 <=? c) && (c <=? 0x0D)) || ((0x1C <=? c) && (c <=? 0x20))
  || (c =? 0x85) || (c =? 0xA0) || (c =? 0x1680)
  || ((0x2000 <=? c) && (c <=? 0x200A))
  || (c =? 0x2028) || (c =? 0x2029) || (c =? 0x202F) || (c =? 0x205F)
  || (c =? 0x3000).

Fixpoint lstrip (s : str) : str :=
  match s with
  | c :: s' => if isspace c then lstrip s' else s
  | [] => []
  end.

Definition rstrip (s : str) : str := reverse (lstrip (reverse s)).

(** [s.strip()] *)
Definition strip (s : str) : str := rstrip (lstrip s).

(** [s.split(sep)] for a one-character separator: never the empty list. *)
Fixpoint split (sep : N) (s : str) : list str :=
  match s with
  | [] => [[]]
  | c :: s' =>
      if c =? sep then [] :: split sep s'
      else match split sep s' with
           | l :: ls => (c :: l) :: ls
           | [] => [[c]]
           end
  end.

(** [sep.join(ls)] *)
Fixpoint join (sep : str) (ls : list str) : str :=
  match ls with
  | [] => []
  | [l] => l
  | l :: ls' => l ++ sep ++ join sep ls'
  end.

(** [s.startswith(p)] *)
Fixpoint startswith (s p : str) : bool :=
  match p, s with
  | [], _ => true
  | _ :: _, [] => false
  | a :: p', c :: s' => (c =? a) && startswith s' p'
  end.

(** [p in s] for strings: [p] occurs as a substring of [s]. *)
Fixpoint contains (s p : str) : bool :=
  startswith s p ||
  match s with
  | [] => false
  | _ :: s' => contains s' p
  end.

(** [str(n)] for an [int]. *)
Definition str_of_int (n : Z) : str :=
  lit (NilZero.string_of_int (Z.to_int n)).

Definition LF : N := 0x0A.

End Py.

(** ** What stripping removes *)

Module PySpec.
Import Py.

(** Every code point is whitespace. *)
Definition all_space (s : str) : Prop := Forall (λ c, isspace c = true) s.

(** Neither the first nor the last code point is whitespace. *)
Definition no_outer_space (s : str) : Prop :=
  (∀ c, head s = Some c → isspace c = false)
  ∧ (∀ c, last s = Some c → isspace c = false).

(** [t] is [s] without its leading and trailing whitespace: [s] is [t]
    between two runs of whitespace, and [t] neither begins nor ends with
    whitespace. *)
Definition trimmed_of (s t : str) : Prop :=
  (∃ lead trail, s = lead ++ t ++ trail ∧ all_space lead ∧ all_space trail)
  ∧ no_outer_space t.

End PySpec.

(** ** The result parser *)

Module Parser.
Import Py.

(** The values [parse_email_list] stores in a record dictionary. *)
Inductive pyval :=
  | VStr (s : str)
  | VBool (b : bool).

#[global] Instance pyval_eq_dec : EqDecision pyval.
Proof. solve_decision. Defined.

(** A [Dict[str, Any]] of the parser. Python compares dictionaries by
    their key/value pairs, which is the equality of [gmap]. *)
Abbreviation dict := (gmap string pyval).

(** Truth value of a dictionary: non-empty. *)
Definition truthy (d : dict) : bool := bool_decide (d ≠ ∅).

(** The glyphs of the source. *)
Definition EQUALS : N := 0x3D.        (* '=' *)
Definition HEAVY_RULE : N := 0x2501.  (* '━' *)
Definition E_MAIL : N := 0x1F4E7.     (* '📧' *)
Definition WARNING : N := 0x26A0.     (* '⚠' *)
Definition ENVELOPE : N := 0x2709.    (* '✉' *)
Definition CHECK_MARK : N := 0x2713.  (* '✓' *)

(** How one iteration of [for line in lines] ends. *)
Inductive flow := Continue | Break.

(** The two variables the loop updates: [emails] and [current_email].
    [emails.append(current_email)] stores a reference, but the loop never
    mutates a dictionary after appending it: a record start rebinds
    [current_email] to a fresh dictionary and the terminator leaves the
    loop, so appending the value is exact. *)
Record vars := Vars { emails : list dict; current_email : dict }.

Definition append_current (v : vars) : list dict :=
  if truthy (current_email v) then emails v ++ [current_email v] else emails v.

(** The body of the loop, on the raw line. *)
Definition loop_body (raw : str) (v : vars) : flow * vars :=
  let line := strip raw in
  if bool_decide (line = []) || startswith line [EQUALS]
     || startswith line [HEAVY_RULE] || startswith line [E_MAIL]
     || startswith line [WARNING]
  then (Continue, v)
  else if startswith line [ENVELOPE] || startswith line [CHECK_MARK] then
    let is_read := startswith line [CHECK_MARK] in
    let subject := strip (drop 2 line) in
    (Continue,
     Vars (append_current v)
          (<["subject" := VStr subject]> (<["is_read" := VBool is_read]> ∅)))
  else if startswith line (lit "From:") then
    (Continue,
     Vars (emails v) (<["sender" := VStr (strip (drop 5 line))]> (current_email v)))
  else if startswith line (lit "Date:") then
    (Continue,
     Vars (emails v) (<["date" := VStr (strip (drop 5 line))]> (current_email v)))
  else if startswith line (lit "Preview:") then
    (Continue,
     Vars (emails v) (<["preview" := VStr (strip (drop 8 line))]> (current_email v)))
  else if startswith line (lit "TOTAL EMAILS") then
    (Break, Vars (append_current v) (current_email v))
  else (Continue, v).

(** [for line in lines: ...] *)
Fixpoint for_lines (lines : list str) (v : vars) : vars :=
  match lines with
  | [] => v
  | raw :: rest =>
      match loop_body raw v with
      | (Break, v') => v'
      | (Continue, v') => for_lines rest v'
      end
  end.

(** The statement after the loop and the [return]. *)
Definition finish (v : vars) : list dict :=
  if truthy (current_email v) && negb (bool_decide (current_email v ∈ emails v))
  then emails v ++ [current_email v]
  else emails v.

Definition parse_lines (lines : list str) : list dict :=
  finish (for_lines lines (Vars [] ∅)).

Definition parse_email_list (output : str) : list dict :=
  parse_lines (split LF output).

End Parser.

(** ** The lines of the parser, by kind *)

Module ParserSpec.
Import Py Parser.

(** The branch of the loop body a raw line takes, with what the branch
    computes from the line. *)
Inductive line_kind :=
  | Skipped
  | RecordStart (is_read : bool) (subject : str)
  | FieldLine (key : string) (value : str)
  | Terminator
  | Unrecognized.

Definition classify (raw : str) : line_kind :=
  let line := strip raw in
  if bool_decide (line = []) || startswith line [EQUALS]
     || startswith line [HEAVY_RULE] || startswith line [E_MAIL]
     || startswith line [WARNING]
  then Skipped
  else if startswith line [ENVELOPE] || startswith line [CHECK_MARK] then
    RecordStart (startswith line [CHECK_MARK]) (strip (drop 2 line))
  else if startswith line (lit "From:") then
    FieldLine "sender" (strip (drop 5 line))
  else if startswith line (lit "Date:") then
    FieldLine "date" (strip (drop 5 line))
  else if startswith line (lit "Preview:") then
    FieldLine "preview" (strip (drop 8 line))
  else if startswith line (lit "TOTAL EMAILS") then Terminator
  else Unrecognized.

(** The line, stripped, begins with [prefix]. *)
Definition begins (raw prefix : str) : Prop :=
  startswith (strip raw) prefix = true.

(** Every prefix the loop body tests. *)
Definition prefixes : list str :=
  [ [EQUALS]; [HEAVY_RULE]; [E_MAIL]; [WARNING]; [ENVELOPE]; [CHECK_MARK];
    lit "From:"; lit "Date:"; lit "Preview:"; lit "TOTAL EMAILS" ].

(** The field prefixes and the key each one sets. *)
Definition field_prefixes : list (str * string) :=
  [ (lit "From:", "sender"); (lit "Date:", "date"); (lit "Preview:", "preview") ].

(** A non-blank line that matches none of the prefixes. *)
Definition unrecognized (raw : str) : Prop :=
  strip raw ≠ [] ∧ Forall (λ prefix, ¬ begins raw prefix) prefixes.

(** A line that opens a record. *)
Definition record_start (raw : str) : Prop :=
  begins raw [ENVELOPE] ∨ begins raw [CHECK_MARK].

(** The value a field line with [prefix] gives: the line without its outer
    whitespace is [prefix] and a remainder, and the value is the remainder
    without its outer whitespace. *)
Definition field_value (prefix raw value : str) : Prop :=
  ∃ line remainder,
    PySpec.trimmed_of raw line ∧ line = prefix ++ remainder
    ∧ PySpec.trimmed_of remainder value.

(** The lines that follow say nothing more about the open record: there
    are none, or the first one starts a record or ends the scanning. *)
Definition closes (lines : list str) : Prop :=
  match lines with
  | [] => True
  | l :: _ => record_start l ∨ begins l (lit "TOTAL EMAILS")
  end.

(** The records in hand: those appended, and the open one if there is one. *)
Definition weight (v : vars) : nat :=
  (length (emails v) + if truthy (current_email v) then 1 else 0)%nat.

End ParserSpec.

(** ** Serializing records and parsing them back *)

Module Format.
Import Py Parser.

(** A record over the documented fields: subject and read flag, and the
    optional sender, date and preview. *)
Record email := Email {
  subject : str;
  is_read : bool;
  sender : option str;
  date : option str;
  preview : option str
}.

(** The record as the dictionary the parser builds. *)
Definition set_field (key : string) (value : option str) (d : dict) : dict :=
  match value with
  | Some v => <[key := VStr v]> d
  | None => d
  end.

Definition to_dict (e : email) : dict :=
  set_field "preview" (preview e) (set_field "date" (date e)
    (set_field "sender" (sender e)
      (<["subject" := VStr (subject e)]> (<["is_read" := VBool (is_read e)]> ∅)))).

(** The documented line format, as the scripts of the source print it:
    the marker, a space and the subject; one indented line per field that
    is present; after the last record the terminator line with the count.
    Every line ends with a line feed. *)
Definition marker (e : email) : N := if is_read e then CHECK_MARK else ENVELOPE.

Definition field_line (prefix : str) (value : option str) : list str :=
  match value with
  | Some v => [lit "   " ++ prefix ++ lit " " ++ v]
  | None => []
  end.

Definition record_lines (e : email) : list str :=
  ([marker e] ++ lit " " ++ subject e)
  :: field_line (lit "From:") (sender e)
  ++ field_line (lit "Date:") (date e)
  ++ field_line (lit "Preview:") (preview e).

Definition terminator_line (count : nat) : str :=
  lit "TOTAL EMAILS: " ++ str_of_int (Z.of_nat count).

Definition unlines (ls : list str) : str := concat ((λ l, l ++ [LF]) <$> ls).

Definition serialize (es : list email) : str :=
  unlines (concat (record_lines <$> es) ++ [terminator_line (length es)]).

(** Text that survives a line of the format: no line feed in it, and
    nothing for [strip] to remove. *)
Definition clean (s : str) : Prop := (LF ∉ s) ∧ (strip s = s).

Definition clean_field (value : option str) : Prop :=
  match value with
  | Some v => clean v
  | None => True
  end.

Definition clean_email (e : email) : Prop :=
  clean (subject e) ∧ clean_field (sender e) ∧ clean_field (date e)
  ∧ clean_field (preview e).

(** A subject with a leading space, and a subject that holds a line feed. *)
Definition padded : email := Email (lit " x") false None None None.
Definition two_lines : email :=
  Email (lit "a" ++ [LF] ++ lit "From: b") false None None None.

End Format.

(** ** The execution engine *)

Module Engine.
Import Py.

Definition MAX_RETRIES : Z := 3.
Definition INITIAL_BACKOFF_SECONDS : Z := 2.

(** The exceptions the [try] statement tells apart, in the order of its
    [except] clauses; [ExException] is any other [Exception], with its
    [str(e)]. *)
Inductive exn :=
  | ExTimeoutExpired (str_e : str)
  | ExFileNotFoundError (str_e : str)
  | ExException (str_e : str).

(** What [await asyncio.to_thread(subprocess.run, ...)] gives: a
    [CompletedProcess] (text mode, output captured) or an exception. *)
Inductive attempt_outcome :=
  | Completed (returncode : Z) (stdout stderr : str)
  | Raises (e : exn).

(** How a call of [run_applescript] ends. *)
Inductive result :=
  | Returned (v : str)
  | Raised (e : exn).

(** The actions at which the coroutine awaits, with what each gives back. *)
Inductive action : Type → Type :=
  | LockAcquire : action unit                       (* enter [async with _applescript_lock] *)
  | LockRelease : action unit                       (* leave it *)
  | Osascript (script : str) : action attempt_outcome  (* [subprocess.run(['osascript','-e',script], timeout=120)] in a thread *)
  | Sleep (secs : Z) : action unit.                 (* [asyncio.sleep(secs)] *)

(** Coroutines: a value, or an action and the rest of the coroutine. The
    loop of the engine is bounded, so the programs are finite trees. *)
Inductive aio (R : Type) : Type :=
  | Ret (r : R)
  | Vis {X : Type} (a : action X) (k : X → aio R).
Arguments Ret {R} r.
Arguments Vis {R X} a k.

Fixpoint bind {R S : Type} (p : aio R) (f : R → aio S) : aio S :=
  match p with
  | Ret r => f r
  | Vis a k => Vis a (λ x, bind (k x) f)
  end.

#[global] Instance aio_ret : MRet aio := @Ret.
#[global] Instance aio_bind : MBind aio := λ R S f p, bind p f.

Definition await {X : Type} (a : action X) : aio X := Vis a Ret.

(** How one iteration of [for attempt in range(MAX_RETRIES)] ends. *)
Inductive iter_result :=
  | IReturn (v : str)
  | IRaise (e : exn)
  | INext (last_exception : option exn).

(** The body of the [try]: returns, or raises into the [except] clauses. *)
Definition try_body (script : str) : aio result :=
  r ← await (Osascript script);
  match r with
  | Raises e => mret (Raised e)
  | Completed returncode stdout stderr =>
      if bool_decide (returncode ≠ 0%Z) then
        let error_msg :=
          if bool_decide (stderr ≠ []) then strip stderr
          else lit "Unknown AppleScript error" in
        mret (Raised (ExException
                (lit "AppleScript error (code " ++ str_of_int returncode
                     ++ lit "): " ++ error_msg)))
      else mret (Returned (strip stdout))
  end.

(** One iteration: the [try] statement with its three [except] clauses. *)
Definition iteration (script : str) (attempt : Z)
    (last_exception : option exn) : aio iter_result :=
  r ← try_body script;
  match r with
  | Returned v => mret (IReturn v)
  | Raised (ExTimeoutExpired str_e) =>
      let last_exception := Some (ExTimeoutExpired str_e) in
      let backoff_time := (INITIAL_BACKOFF_SECONDS * 2 ^ attempt)%Z in
      if bool_decide (attempt < MAX_RETRIES - 1)%Z then
        await (Sleep backoff_time);; mret (INext last_exception)
      else
        mret (IRaise (ExException
                (lit "AppleScript execution timed out after "
                     ++ str_of_int MAX_RETRIES ++ lit " attempts. "
                     ++ lit "Apple Mail may be unresponsive.")))
  | Raised (ExFileNotFoundError _) =>
      mret (IRaise (ExException
              (lit "osascript not found. This tool requires macOS with AppleScript support.")))
  | Raised (ExException str_e) =>
      if contains str_e (lit "AppleScript error") then
        mret (IRaise (ExException str_e))
      else
        mret (IRaise (ExException (lit "AppleScript execution failed: " ++ str_e)))
  end.

(** [for attempt in attempts: ...]: [inl] when an iteration returned or
    raised, [inr last_exception] when the loop ran to completion. *)
Fixpoint for_attempts (script : str) (attempts : list Z)
    (last_exception : option exn) : aio (result + option exn) :=
  match attempts with
  | [] => mret (inr last_exception)
  | attempt :: rest =>
      r ← iteration script attempt last_exception;
      match r with
      | IReturn v => mret (inl (Returned v))
      | IRaise e => mret (inl (Raised e))
      | INext last_exception' => for_attempts script rest last_exception'
      end
  end.

(** [range(n)] *)
Definition range (n : Z) : list Z := Z.of_nat <$> seq 0 (Z.to_nat n).

(** [str(last_exception)] *)
Definition str_of_last (last_exception : option exn) : str :=
  match last_exception with
  | None => lit "None"
  | Some (ExTimeoutExpired str_e) | Some (ExFileNotFoundError str_e)
  | Some (ExException str_e) => str_e
  end.

(** The statement after the loop. *)
Definition fallback (last_exception : option exn) : result :=
  Raised (ExException
    (lit "AppleScript execution failed after " ++ str_of_int MAX_RETRIES
         ++ lit " attempts: " ++ str_of_last last_exception)).

(** The block under [async with _applescript_lock]. *)
Definition locked_block (script : str) : aio result :=
  r ← for_attempts script (range MAX_RETRIES) None;
  match r with
  | inl res => mret res
  | inr last_exception => mret (fallback last_exception)
  end.

(** [async with] releases the lock however the block ends. *)
Definition run_applescript (script : str) : aio result :=
  await LockAcquire;;
  res ← locked_block script;
  await LockRelease;;
  mret res.

(** *** One call against the interpreter *)

Inductive event :=
  | EvAcquire
  | EvRelease
  | EvInvoke (script : str)
  | EvSleep (secs : Z).

(** The interpreter as an oracle: [env n] is what the [n]-th invocation of
    the call (from 0) gives. *)
Definition answer {X : Type} (env : nat → attempt_outcome) (n : nat)
    (a : action X) : X :=
  match a with
  | LockAcquire => ()
  | LockRelease => ()
  | Osascript _ => env n
  | Sleep _ => ()
  end.

Definition event_of {X : Type} (a : action X) : event :=
  match a with
  | LockAcquire => EvAcquire
  | LockRelease => EvRelease
  | Osascript script => EvInvoke script
  | Sleep secs => EvSleep secs
  end.

Definition invocations_of {X : Type} (a : action X) : nat :=
  match a with
  | Osascript _ => 1
  | _ => 0
  end.

(** Runs a coroutine alone: its value and the actions it performed. *)
Fixpoint run {R : Type} (env : nat → attempt_outcome) (n : nat) (p : aio R)
    : R * list event :=
  match p with
  | Ret r => (r, [])
  | Vis a k =>
      let '(r, tr) := run env (n + invocations_of a) (k (answer env n a)) in
      (r, event_of a :: tr)
  end.

Definition execute (env : nat → attempt_outcome) (script : str)
    : result * list event :=
  run env 0 (run_applescript script).



Definition is_invoke (e : event) : bool :=
  match e with
  | EvInvoke _ => true
  | _ => false
  end.

(** The number of interpreter invocations in a trace. *)
Definition invocations (tr : list event) : nat :=
  length (filter (λ e, is_invoke e) tr).

End Engine.

(** ** Several calls on one event loop *)

Module EventLoop.
Import Py Engine.

(** A call is runnable (or finished, at [Ret]), or suspended on the thread
    that runs the interpreter. *)
Inductive task :=
  | Ready (p : aio result)
  | InFlight (k : attempt_outcome → aio result).

(** The module-level [_applescript_lock] and the calls in progress. *)
Record loop_state := LoopState { _applescript_lock : bool; tasks : list task }.

(** What an observer of the event loop sees, with the call it belongs to.
    An interpreter invocation is the interval from [Started] to [Ended]. *)
Inductive loop_event :=
  | Acquired (i : nat)
  | Released (i : nat)
  | Started (i : nat) (script : str)
  | Ended (i : nat)
  | Slept (i : nat) (secs : Z).

(** The event loop resumes call [i]; [o] is what the interpreter gives if
    the call is waiting for it. [None]: the call cannot be resumed (it has
    finished, or it waits for the lock and the lock is taken). *)
Definition step (i : nat) (o : attempt_outcome) (s : loop_state)
    : option (loop_event * loop_state) :=
  match tasks s !! i with
  | None => None
  | Some (InFlight k) =>
      Some (Ended i, LoopState (_applescript_lock s) (<[i := Ready (k o)]> (tasks s)))
  | Some (Ready (Ret _)) => None
  | Some (Ready (Vis a k)) =>
      match a in action X return (X → aio result) → _ with
      | LockAcquire => λ k,
          if _applescript_lock s then None
          else Some (Acquired i, LoopState true (<[i := Ready (k ())]> (tasks s)))
      | LockRelease => λ k,
          Some (Released i, LoopState false (<[i := Ready (k ())]> (tasks s)))
      | Osascript script => λ k,
          Some (Started i script, LoopState (_applescript_lock s) (<[i := InFlight k]> (tasks s)))
      | Sleep secs => λ k,
          Some (Slept i secs, LoopState (_applescript_lock s) (<[i := Ready (k ())]> (tasks s)))
      end k
  end.

(** A schedule names, step by step, the call that is resumed. *)
Fixpoint exec (sched : list (nat * attempt_outcome)) (s : loop_state)
    : option (list loop_event * loop_state) :=
  match sched with
  | [] => Some ([], s)
  | (i, o) :: rest =>
      match step i o s with
      | None => None
      | Some (e, s') =>
          match exec rest s' with
          | None => None
          | Some (tr, s'') => Some (e :: tr, s'')
          end
      end
  end.

(** Concurrent calls of [run_applescript], one per script. *)
Definition spawn (scripts : list str) : loop_state :=
  LoopState false ((λ script, Ready (run_applescript script)) <$> scripts).

(** The interpreter channel, as the lock discipline wants it: free, owned
    by a call between two invocations, or owned by a call whose invocation
    is running. *)
Inductive channel :=
  | Idle
  | Held (i : nat)
  | Busy (i : nat).

Definition owner (c : channel) : option nat :=
  match c with
  | Idle => None
  | Held i | Busy i => Some i
  end.

(** The only events the discipline allows in each state of the channel. *)
Definition observe (c : channel) (e : loop_event) : option channel :=
  match c, e with
  | Idle, Acquired i => Some (Held i)
  | Held i, Started j _ => if decide (i = j) then Some (Busy i) else None
  | Busy i, Ended j => if decide (i = j) then Some (Held i) else None
  | Held i, Slept j _ => if decide (i = j) then Some (Held i) else None
  | Held i, Released j => if decide (i = j) then Some Idle else None
  | _, _ => None
  end.

Fixpoint monitor (c : channel) (tr : list loop_event) : option channel :=
  match tr with
  | [] => Some c
  | e :: tr' =>
      match observe c e with
      | None => None
      | Some c' => monitor c' tr'
      end
  end.

(** Invocation intervals are pairwise disjoint: an invocation that starts
    after another one has started, starts after that one has ended. *)
Definition disjoint_invocations (tr : list loop_event) : Prop :=
  ∀ a b i j sa sb,
    tr !! a = Some (Started i sa) → tr !! b = Some (Started j sb) →
    (a < b)%nat →
    ∃ c, (a < c < b)%nat ∧ tr !! c = Some (Ended i).

(** Shapes of the rest of a call: [finished], [in_block] (inside the
    [async with] block: invocations and sleeps, then one release, then the
    end) and [outside] (finished, or about to acquire the lock and enter
    the block). *)
Definition finished (p : aio result) : Prop :=
  match p with
  | Ret _ => True
  | Vis _ _ => False
  end.

Fixpoint in_block (p : aio result) : Prop :=
  match p with
  | Ret _ => False
  | Vis a k =>
      match a in action X return (X → aio result) → (X → Prop) → Prop with
      | LockAcquire => λ _ _, False
      | LockRelease => λ k _, ∀ u, finished (k u)
      | Osascript _ => λ _ rec, ∀ o, rec o
      | Sleep _ => λ _ rec, ∀ u, rec u
      end k (λ x, in_block (k x))
  end.

Definition outside (p : aio result) : Prop :=
  match p with
  | Ret _ => True
  | Vis a k =>
      match a in action X return (X → aio result) → Prop with
      | LockAcquire => λ k, ∀ u, in_block (k u)
      | _ => λ _, False
      end k
  end.

(** A coroutine that never touches the lock. *)
Fixpoint lock_free {R : Type} (p : aio R) : Prop :=
  match p with
  | Ret _ => True
  | Vis a k =>
      match a in action X return (X → Prop) → Prop with
      | LockAcquire | LockRelease => λ _, False
      | Osascript _ => λ rec, ∀ o, rec o
      | Sleep _ => λ rec, ∀ u, rec u
      end (λ x, lock_free (k x))
  end.

(** What the channel state says about the event loop. *)
Record agrees (c : channel) (s : loop_state) : Prop := Agrees {
  agrees_locked : _applescript_lock s = match c with Idle => false | _ => true end;
  agrees_others : ∀ j t, tasks s !! j = Some t → owner c ≠ Some j →
                    ∃ p, t = Ready p ∧ outside p;
  agrees_owner :
    match c with
    | Idle => True
    | Held i => ∃ p, tasks s !! i = Some (Ready p) ∧ in_block p
    | Busy i => ∃ k, tasks s !! i = Some (InFlight k) ∧ ∀ o, in_block (k o)
    end
}.

End EventLoop.

(** ** Cancelling a call *)

Module Cancellation.
Import Py Engine EventLoop.

(** What the event loop does next. It resumes a call. Or it cancels a
    call ([Task.cancel()]): [CancelledError] is raised in the coroutine at
    the [await] where it is suspended; it is not an [Exception], so none
    of the [except] clauses of [run_applescript] takes it, and it leaves
    the [async with] block, which releases the lock. Or the interpreter
    that a cancelled call had started comes to its end: the thread of
    [asyncio.to_thread] is not stopped by the cancellation, it stays in
    [subprocess.run] until the interpreter exits or its timeout fires. *)
Inductive command :=
  | Resume (i : nat) (o : attempt_outcome)
  | Cancel (i : nat)
  | ThreadEnds (i : nat).

(** The event loop with cancellation: the lock and the calls, the call
    that is inside the [async with] block if there is one, the calls that
    ended with [CancelledError] and, among them, those whose interpreter
    is still running. *)
Record world := World {
  loop : loop_state;
  holder : option nat;
  cancelled : list nat;
  threads : list nat
}.

Definition holder_after (h : option nat) (e : loop_event) : option nat :=
  match e with
  | Acquired i => Some i
  | Released _ => None
  | _ => h
  end.

Definition in_flight (t : task) : bool :=
  match t with
  | InFlight _ => true
  | Ready _ => false
  end.

Definition ended (t : task) : bool :=
  match t with
  | Ready (Ret _) => true
  | _ => false
  end.

(** One command. [None]: the command cannot be obeyed (the call has ended
    or cannot be resumed, no such thread is running). Cancelling the call
    inside the block releases the lock, and that is the only event of a
    cancellation; when the interpreter of the call is running, its thread
    is left behind. *)
Definition obey (c : command) (w : world)
    : option (list loop_event * world) :=
  match c with
  | Resume i o =>
      if bool_decide (i ∈ cancelled w) then None
      else match step i o (loop w) with
           | None => None
           | Some (e, l) =>
               Some ([e], World l (holder_after (holder w) e)
                                (cancelled w) (threads w))
           end
  | Cancel i =>
      if bool_decide (i ∈ cancelled w) then None
      else match tasks (loop w) !! i with
           | None => None
           | Some t =>
               if ended t then None
               else
                 let inside := bool_decide (holder w = Some i) in
                 Some (if inside then [Released i] else [],
                       World (LoopState
                                (if inside then false
                                 else _applescript_lock (loop w))
                                (tasks (loop w)))
                             (if inside then None else holder w)
                             (i :: cancelled w)
                             (if in_flight t then i :: threads w
                              else threads w))
           end
  | ThreadEnds i =>
      if bool_decide (i ∈ threads w) then
        Some ([Ended i],
              World (loop w) (holder w) (cancelled w)
                    (filter (λ j, j ≠ i) (threads w)))
      else None
  end.

Fixpoint obey_all (cs : list command) (w : world)
    : option (list loop_event * world) :=
  match cs with
  | [] => Some ([], w)
  | c :: rest =>
      match obey c w with
      | None => None
      | Some (es, w') =>
          match obey_all rest w' with
          | None => None
          | Some (tr, w'') => Some (es ++ tr, w'')
          end
      end
  end.

(** Concurrent calls of [run_applescript], none of them cancelled. *)
Definition world_of (scripts : list str) : world :=
  World (spawn scripts) None [] [].

(** A schedule without cancellation. *)
Definition resumes (sched : list (nat * attempt_outcome)) : list command :=
  (λ io, Resume io.1 io.2) <$> sched.

(** Two invocations are running at once: one starts while another one,
    started before, has not ended yet. *)
Definition overlapping (tr : list loop_event) : Prop :=
  ∃ a b c i j sa sb,
    (a < b < c)%nat ∧ i ≠ j
    ∧ tr !! a = Some (Started i sa) ∧ tr !! b = Some (Started j sb)
    ∧ tr !! c = Some (Ended i)
    ∧ ∀ m, (a < m < c)%nat → tr !! m ≠ Some (Ended i).

End Cancellation.

(** ** More of Python: replacing, indexing, ranges *)

Module PyMore.
Import Py.

Definition QUOTE : N := 0x22.      (* the double quote *)
Definition BACKSLASH : N := 0x5C.  (* the backslash *)
Definition PIPE : N := 0x7C.       (* '|' *)
Definition COLON : N := 0x3A.      (* ':' *)
Definition SLASH : N := 0x2F.      (* '/' *)

(** [s.replace(old, new)] for a non-empty [old], as every call of the
    source has it: the occurrences of [old], leftmost first and not
    overlapping, become [new]. [skip] counts the characters of a match
    that are still to be passed over. *)
Fixpoint replace_from (old new : str) (skip : nat) (s : str) : str :=
  match s with
  | [] => []
  | c :: s' =>
      match skip with
      | S k => replace_from old new k s'
      | O =>
          if startswith s old
          then new ++ replace_from old new (length old - 1) s'
          else c :: replace_from old new 0 s'
      end
  end.

Definition str_replace (old new s : str) : str := replace_from old new 0 s.

(** [s.split(sep, 1)] for a one-character separator: the text before the
    first [sep] and the text after it, or [s] alone. *)
Fixpoint split_once (sep : N) (s : str) : list str :=
  match s with
  | [] => [[]]
  | c :: s' =>
      if c =? sep then [[]; s']
      else match split_once sep s' with
           | l :: ls => (c :: l) :: ls
           | [] => [[c]]
           end
  end.

(** [l[i]], with Python's negative indices; [None] is [IndexError]. *)
Definition getitem {A : Type} (l : list A) (i : Z) : option A :=
  if bool_decide (0 ≤ i)%Z then l !! Z.to_nat i
  else if bool_decide (- Z.of_nat (length l) ≤ i)%Z
       then l !! Z.to_nat (Z.of_nat (length l) + i)
       else None.

(** [range(start, stop, -1)] *)
Definition range_down (start stop : Z) : list Z :=
  (λ k, (start - Z.of_nat k)%Z) <$> seq 0 (Z.to_nat (start - stop)).

(** A loop whose body may raise: [None] as soon as one step gives [None]. *)
Fixpoint for_each {A B : Type} (body : A → B → option A) (acc : A)
    (items : list B) : option A :=
  match items with
  | [] => Some acc
  | item :: rest =>
      match body acc item with
      | None => None
      | Some acc' => for_each body acc' rest
      end
  end.

End PyMore.

(** ** The tools: what they compute around the script *)

Module Tools.
Import Py PyMore Engine.

(** How a tool ends: with its value, or with the exception of
    [run_applescript], which no tool catches. *)
Inductive outcome (A : Type) :=
  | Ok (a : A)
  | Err (e : exn).
Arguments Ok {A} a.
Arguments Err {A} e.

(** [text.replace(q, b + q)] with [q] the double quote and [b] the
    backslash: the escaping of [reply_to_email], [compose_email],
    [forward_email] and [manage_drafts] for the texts they put between
    double quotes in the script. *)
Definition escape_quotes (text : str) : str :=
  str_replace [QUOTE] [BACKSLASH; QUOTE] text.

(** [get_email_thread]: the loop that removes the reply and forward
    prefixes from the keyword. *)
Definition thread_keywords : list str :=
  [lit "Re:"; lit "Fwd:"; lit "FW:"; lit "RE:"; lit "Fw:"].

Definition cleaned_keyword (subject_keyword : str) : str :=
  foldl (λ cleaned_keyword prefix, strip (str_replace prefix [] cleaned_keyword))
        subject_keyword thread_keywords.

(** [move_email]: the reference to the destination mailbox, built from the
    path [to_mailbox]. [None] is an [IndexError] of one of the subscripts. *)
Definition mailbox_of (name : str) : str :=
  lit "mailbox " ++ [QUOTE] ++ name ++ [QUOTE] ++ lit " of ".

Definition dest_mailbox_script (to_mailbox : str) : option str :=
  let mailbox_parts := split SLASH to_mailbox in
  if bool_decide (1 < length mailbox_parts)%nat then
    last_part ← getitem mailbox_parts (-1);
    let dest_mailbox_script := mailbox_of last_part in
    dest_mailbox_script ←
      for_each (λ dest_mailbox_script i,
                  part ← getitem mailbox_parts i;
                  Some (dest_mailbox_script ++ mailbox_of part))
               dest_mailbox_script
               (range_down (Z.of_nat (length mailbox_parts) - 2) (-1));
    Some (dest_mailbox_script ++ lit "targetAccount")
  else
    Some (lit "mailbox " ++ [QUOTE] ++ to_mailbox ++ [QUOTE]
            ++ lit " of targetAccount").

(** [list_accounts]: the script, and the value made from its output. *)
Definition list_accounts_script : str :=
  join [LF]
    [ [];
      lit "    tell application " ++ [QUOTE] ++ lit "Mail" ++ [QUOTE];
      lit "        set accountNames to {}";
      lit "        set allAccounts to every account";
      [];
      lit "        repeat with anAccount in allAccounts";
      lit "            set accountName to name of anAccount";
      lit "            set end of accountNames to accountName";
      lit "        end repeat";
      [];
      lit "        set AppleScript's text item delimiters to "
        ++ [QUOTE] ++ lit "|" ++ [QUOTE];
      lit "        return accountNames as string";
      lit "    end tell";
      lit "    " ].

Definition list_accounts_result (result : str) : list str :=
  if bool_decide (result ≠ []) then split PIPE result else [].

Definition list_accounts : aio (outcome (list str)) :=
  r ← run_applescript list_accounts_script;
  match r with
  | Returned result => mret (Ok (list_accounts_result result))
  | Raised e => mret (Err e)
  end.

(** [get_inbox_applescript_snippet]: the lines that look for the inbox of
    an account under its usual names. *)
Definition get_inbox_applescript_snippet (account_var : str) : str :=
  join [LF]
    [ [];
      lit "                -- Dynamic inbox discovery with fallback chain";
      lit "                set inboxMailbox to missing value";
      lit "                set possibleInboxNames to {" ++ [QUOTE]
        ++ lit "INBOX" ++ [QUOTE] ++ lit ", " ++ [QUOTE] ++ lit "Inbox"
        ++ [QUOTE] ++ lit ", " ++ [QUOTE] ++ lit "Bo" ++ [0xEE]
        ++ lit "te de r" ++ [0xE9] ++ lit "ception" ++ [QUOTE] ++ lit ", "
        ++ [QUOTE] ++ lit "Posteingang" ++ [QUOTE] ++ lit ", " ++ [QUOTE]
        ++ lit "Bandeja de entrada" ++ [QUOTE] ++ lit ", " ++ [QUOTE]
        ++ lit "Posta in arrivo" ++ [QUOTE] ++ lit ", " ++ [QUOTE]
        ++ lit "Caixa de entrada" ++ [QUOTE] ++ lit ", " ++ [QUOTE]
        ++ [0x412; 0x445; 0x43E; 0x434; 0x44F; 0x449; 0x438; 0x435] ++ [QUOTE]
        ++ lit ", " ++ [QUOTE] ++ [0x53D7; 0x4FE1; 0x30C8; 0x30EC; 0x30A4]
        ++ [QUOTE] ++ lit ", " ++ [QUOTE] ++ [0x6536; 0x4EF6; 0x7BB1]
        ++ [QUOTE] ++ lit "}";
      lit "                repeat with inboxName in possibleInboxNames";
      lit "                    try";
      lit "                        set inboxMailbox to mailbox inboxName of "
        ++ account_var;
      lit "                        exit repeat";
      lit "                    end try";
      lit "                end repeat";
      lit "                if inboxMailbox is missing value then";
      lit "                    error " ++ [QUOTE]
        ++ lit "Could not find inbox for account " ++ [QUOTE]
        ++ lit " & (name of " ++ account_var ++ lit ")";
      lit "                end if";
      [] ].

(** [get_unread_count]: the script. *)
Definition get_unread_count_script : str :=
  let inbox_discovery := get_inbox_applescript_snippet (lit "anAccount") in
  join [LF]
    [ [];
      lit "    tell application " ++ [QUOTE] ++ lit "Mail" ++ [QUOTE];
      lit "        set resultList to {}";
      lit "        set allAccounts to every account";
      [];
      lit "        repeat with anAccount in allAccounts";
      lit "            set accountName to name of anAccount";
      [];
      lit "            try";
      lit "                " ++ inbox_discovery;
      lit "                set unreadCount to unread count of inboxMailbox";
      lit "                set end of resultList to accountName & " ++ [QUOTE]
        ++ lit ":" ++ [QUOTE] ++ lit " & unreadCount";
      lit "            on error";
      lit "                set end of resultList to accountName & " ++ [QUOTE]
        ++ lit ":ERROR" ++ [QUOTE];
      lit "            end try";
      lit "        end repeat";
      [];
      lit "        set AppleScript's text item delimiters to " ++ [QUOTE]
        ++ lit "|" ++ [QUOTE];
      lit "        return resultList as string";
      lit "    end tell";
      lit "    " ].

(** [get_unread_count]: the loop over the output of the script, which is
    [name:count] items separated by [|]. [int] is Python's [int(text)],
    [None] where it raises [ValueError]; the [None] of the loop is that
    exception (or the one of an unpacking that does not find two parts). *)
Section UnreadCount.

Variable int : str → option Z.

Definition count_item (counts : gmap str Z) (item : str)
    : option (gmap str Z) :=
  if bool_decide (COLON ∈ item) then
    match split_once COLON item with
    | [account; count] =>
        if bool_decide (count ≠ lit "ERROR") then
          n ← int count; Some (<[account := n]> counts)
        else Some (<[account := (-1)%Z]> counts)
    | _ => None
    end
  else Some counts.

Definition unread_counts (result : str) : option (gmap str Z) :=
  for_each count_item ∅ (split PIPE result).

(** The tool: one call of [run_applescript], then the loop over its
    result. The exception of the call is [Err]; [Ok None] is the exception
    of the loop, [Ok (Some counts)] the dictionary returned. *)
Definition get_unread_count : aio (outcome (option (gmap str Z))) :=
  r ← run_applescript get_unread_count_script;
  match r with
  | Returned result => mret (Ok (unread_counts result))
  | Raised e => mret (Err e)
  end.

End UnreadCount.

(** [search_emails]: the conditions of the search and their conjunction
    ([update_email_status] and [manage_trash] build theirs the same way,
    from the keyword and the sender alone). An absent argument is [None]. *)
Definition given (text : option str) : bool :=
  match text with
  | Some (_ :: _) => true
  | _ => false
  end.

Definition contains_condition (variable : string) (text : option str) : list str :=
  match text with
  | Some (c :: text') =>
      [lit variable ++ lit " contains " ++ [QUOTE] ++ c :: text' ++ [QUOTE]]
  | _ => []
  end.

Definition search_conditions (subject_keyword sender : option str)
    (has_attachments : option bool) (read_status : str) : list str :=
  let conditions := [] in
  let conditions := conditions ++ contains_condition "messageSubject" subject_keyword in
  let conditions := conditions ++ contains_condition "messageSender" sender in
  let conditions :=
    match has_attachments with
    | Some true => conditions ++ [lit "(count of mail attachments of aMessage) > 0"]
    | Some false => conditions ++ [lit "(count of mail attachments of aMessage) = 0"]
    | None => conditions
    end in
  if bool_decide (read_status = lit "read") then
    conditions ++ [lit "messageRead is true"]
  else if bool_decide (read_status = lit "unread") then
    conditions ++ [lit "messageRead is false"]
  else conditions.

Definition condition_str (conditions : list str) : str :=
  if bool_decide (conditions ≠ []) then join (lit " and ") conditions
  else lit "true".

End Tools.

(** ** More about the lines and the records of the parser *)

Module ParserMore.
Import Py Parser ParserSpec.

(** A line the loop passes over: blank, or beginning with one of the four
    decoration glyphs. *)
Definition decorative (raw : str) : Prop :=
  strip raw = [] ∨ begins raw [EQUALS] ∨ begins raw [HEAVY_RULE]
  ∨ begins raw [E_MAIL] ∨ begins raw [WARNING].

(** A line that sets a field. *)
Definition field_start (raw : str) : Prop :=
  Exists (λ pk : str * string, begins raw pk.1) field_prefixes.

(** What a record dictionary may hold: the read flag under [is_read], a
    stripped text under the four text keys, and a subject exactly when it
    holds a read flag. *)
Definition value_ok (key : string) (x : pyval) : Prop :=
  match x with
  | VBool _ => key = "is_read"
  | VStr s => key ∈ ["subject"; "sender"; "date"; "preview"] ∧ strip s = s
  end.

Definition fields_ok (r : dict) : Prop :=
  (∀ key x, r !! key = Some x → value_ok key x)
  ∧ (is_Some (r !! "subject") ↔ is_Some (r !! "is_read")).

Definition record_ok (r : dict) : Prop := r ≠ ∅ ∧ fields_ok r.

End ParserMore.

(** ** More about the engine: the shape of a call, its length *)

Module EngineMore.
Import Py Engine EventLoop.

(** The events of [k] attempts that timed out and were slept after. *)
Definition retries (script : str) (k : nat) : list event :=
  concat ((λ attempt,
             [EvInvoke script; EvSleep (INITIAL_BACKOFF_SECONDS * 2 ^ attempt)])
          <$> range (Z.of_nat k)).

(** The events an action takes on the event loop: an interpreter
    invocation is two, its start and its end. *)
Definition cost {X : Type} (a : action X) : nat :=
  match a with
  | Osascript _ => 2
  | _ => 1
  end.

(** The coroutine ends within [n] events, whatever it is answered. *)
Fixpoint within {R : Type} (n : nat) (p : aio R) : Prop :=
  match p with
  | Ret _ => True
  | Vis a k => (cost a ≤ n)%nat ∧ ∀ x, within (n - cost a) (k x)
  end.

Definition task_within (n : nat) (t : task) : Prop :=
  match t with
  | Ready p => within n p
  | InFlight k => (1 ≤ n)%nat ∧ ∀ o, within (n - 1) (k o)
  end.

(** A call that has ended. *)
Definition task_done (t : task) : Prop :=
  match t with
  | Ready (Ret _) => True
  | _ => False
  end.

End EngineMore.

(** ** The output of the unread-count script *)

Module ToolsSpec.
Import Py PyMore Tools.

(** What the script of [get_unread_count] writes for an account: its name,
    a colon, and its count or, when the count could not be read, [ERROR];
    the items are joined with [|]. *)
Definition count_text (count : option Z) : str :=
  match count with
  | Some n => str_of_int n
  | None => lit "ERROR"
  end.

Definition unread_item (account : str * option Z) : str :=
  account.1 ++ [COLON] ++ count_text account.2.

Definition unread_output (accounts : list (str * option Z)) : str :=
  join [PIPE] (unread_item <$> accounts).

(** What the tool stores for an account: the count, or -1 for [ERROR]. *)
Definition count_entry (account : str * option Z) : str * Z :=
  (account.1, default (-1)%Z account.2).

(** A condition of the search begins with a letter [m] or a parenthesis. *)
Definition condition_head (condition : str) : Prop :=
  ∃ rest, condition = 0x6D :: rest ∨ condition = 0x28 :: rest.

(** The characters of a decimal numeral. *)
Definition numeral_char (c : N) : Prop := c = 0x2D ∨ (0x30 ≤ c ∧ c ≤ 0x39).

End ToolsSpec.

(** ** Inputs used below *)

Module Examples.
Import Py Parser Format Engine EventLoop Cancellation.

(** The example of the specification:
    ["✉ Hello\n   From: a@b.com\n   Date: 2024-01-01\nTOTAL EMAILS: 1\n"]. *)
Definition example_output : str :=
  [ENVELOPE] ++ lit " Hello" ++ [LF]
  ++ lit "   From: a@b.com" ++ [LF]
  ++ lit "   Date: 2024-01-01" ++ [LF]
  ++ lit "TOTAL EMAILS: 1" ++ [LF].

Definition example_record : dict :=
  <["subject" := VStr (lit "Hello")]> (<["is_read" := VBool false]>
  (<["sender" := VStr (lit "a@b.com")]> (<["date" := VStr (lit "2024-01-01")]> ∅))).

(** ["✉ A\n✉ A"]: two record starts with the same subject, and nothing else. *)
Definition twice_output : str :=
  [ENVELOPE] ++ lit " A" ++ [LF] ++ [ENVELOPE] ++ lit " A".

Definition record_A : dict :=
  <["subject" := VStr (lit "A")]> (<["is_read" := VBool false]> ∅).

(** A record of the documented shape. *)
Definition hello : email :=
  Email (lit "Hello") false (Some (lit "a@b.com")) (Some (lit "2024-01-01")) None.

(** Interpreters: one that succeeds, one that times out once and then
    fails, one that always times out. *)
Definition env_ok (n : nat) : attempt_outcome := Completed 0 (lit " ok ") [].

Definition env_fail (n : nat) : attempt_outcome :=
  match n with
  | O => Raises (ExTimeoutExpired (lit "timed out"))
  | _ => Completed 1 [] (lit "boom")
  end.

Definition env_timeout (n : nat) : attempt_outcome :=
  Raises (ExTimeoutExpired (lit "timed out")).

(** A run of two concurrent calls: the first times out once and then
    succeeds, the second one fails with a script error. The second call
    can only enter once the first has released the lock. *)
Definition demo_scripts : list str := [lit "count"; lit "oops"].

Definition demo_sched : list (nat * attempt_outcome) :=
  let idle := Completed 0 [] [] in
  [ (0, idle); (0, idle); (0, Raises (ExTimeoutExpired (lit "timed out")));
    (0, idle); (0, idle); (0, Completed 0 (lit "3 ") []); (0, idle);
    (1, idle); (1, idle); (1, Completed 1 [] (lit "syntax error")); (1, idle) ]%nat.

Definition demo_trace : list loop_event :=
  [ Acquired 0; Started 0 (lit "count"); Ended 0; Slept 0 2;
    Started 0 (lit "count"); Ended 0; Released 0;
    Acquired 1; Started 1 (lit "oops"); Ended 1; Released 1 ]%nat.

Definition demo_final : loop_state :=
  LoopState false
    [ Ready (Ret (Returned (lit "3")));
      Ready (Ret (Raised (ExException
        (lit "AppleScript error (code 1): syntax error")))) ].

(** The two calls again, the first one cancelled while its interpreter is
    running: the second call enters, and its interpreter runs next to the
    one the first call left behind. *)
Definition cancel_sched : list command :=
  let idle := Completed 0 [] [] in
  [ Resume 0 idle; Resume 0 idle; Cancel 0;
    Resume 1 idle; Resume 1 idle; ThreadEnds 0;
    Resume 1 (Completed 0 (lit "5 ") []); Resume 1 idle ]%nat.

Definition cancel_trace : list loop_event :=
  [ Acquired 0; Started 0 (lit "count"); Released 0;
    Acquired 1; Started 1 (lit "oops"); Ended 0; Ended 1; Released 1 ]%nat.

(** A field line before any record start. *)
Definition field_first_output : str :=
  lit "note" ++ [LF] ++ lit " From:  x " ++ [LF] ++ lit "Date: d".

End Examples.

(** ** More inputs *)

Module MoreExamples.
Import Py PyMore Parser Engine EventLoop Tools ToolsSpec.

(** A reader of plain decimal numerals, as [int] reads them. *)
Fixpoint digits_value (acc : Z) (s : str) : option Z :=
  match s with
  | [] => Some acc
  | c :: s' =>
      if (0x30 <=? c) && (c <=? 0x39)
      then digits_value (10 * acc + Z.of_N (c - 0x30)) s'
      else None
  end.

Definition int_ascii (s : str) : option Z :=
  match s with
  | [] => None
  | c :: rest =>
      if c =? 0x2D then
        match rest with
        | [] => None
        | _ => Z.opp <$> digits_value 0 rest
        end
      else digits_value 0 s
  end.

(** An interpreter that times out once and then succeeds, and one that
    prints white space only. *)
Definition env_retry (n : nat) : attempt_outcome :=
  match n with
  | O => Raises (ExTimeoutExpired (lit "timed out"))
  | _ => Completed 0 (lit " ok ") []
  end.

Definition env_blank (n : nat) : attempt_outcome := Completed 0 (lit "  ") [].

(** Two accounts, the second one with a count that could not be read. *)
Definition two_accounts : list (str * option Z) :=
  [(lit "Work", Some 3%Z); (lit "Home", None)].

(** An interpreter that prints two account names, and one that prints the
    counts of these accounts, each with the newline that ends the output. *)
Definition env_accounts (n : nat) : attempt_outcome :=
  Completed 0 (lit "Work|Home" ++ [LF]) [].

Definition env_counts (n : nat) : attempt_outcome :=
  Completed 0 (lit "Work:3|Home:ERROR" ++ [LF]) [].

(** Lines of an output. *)
Definition line_A : str := [ENVELOPE] ++ lit " A".
Definition rule_line : str := lit "========".

(** A text with two double quotes. *)
Definition quoted : str := lit "say " ++ [QUOTE] ++ lit "hi" ++ [QUOTE].

End MoreExamples.

Import Py PySpec Parser ParserSpec Engine EventLoop Cancellation Examples.

(** * Properties *)

(** ** The event loop *)

Section Serialization.

Lemma lock_free_bind {R S : Type} (p : aio R) (f : R → aio S) :
  lock_free p → (∀ r, lock_free (f r)) → lock_free (bind p f).
Proof.
  intros Hp Hf. induction p as [r | X a k IH]; simpl; [apply Hf |].
  destruct a; simpl in *; try done; intros x; apply IH, Hp.
Qed.

Lemma in_block_bind {R : Type} (p : aio R) (f : R → aio result) :
  lock_free p → (∀ r, in_block (f r)) → in_block (bind p f).
Proof.
  intros Hp Hf. induction p as [r | X a k IH]; simpl; [apply Hf |].
  destruct a; simpl in *; try done; intros x; apply IH, Hp.
Qed.

Lemma lock_free_try_body script : lock_free (try_body script).
Proof.
  unfold try_body. simpl. intros [returncode stdout stderr | e]; simpl; [| done].
  case_bool_decide; done.
Qed.

Lemma lock_free_iteration script attempt last_exception :
  lock_free (iteration script attempt last_exception).
Proof.
  apply (lock_free_bind (try_body script)); [apply lock_free_try_body |].
  intros [v | [str_e | str_e | str_e]]; simpl; try done.
  - case_bool_decide; simpl; done.
  - destruct (contains _ _); done.
Qed.

Lemma lock_free_for_attempts script attempts last_exception :
  lock_free (for_attempts script attempts last_exception).
Proof.
  revert last_exception.
  induction attempts as [| attempt rest IH]; intros last_exception; [done |].
  apply (lock_free_bind (iteration script attempt last_exception));
    [apply lock_free_iteration |].
  intros [v | e | last_exception']; simpl; auto.
Qed.

Lemma lock_free_locked_block script : lock_free (locked_block script).
Proof.
  apply (lock_free_bind (for_attempts script (range MAX_RETRIES) None));
    [apply lock_free_for_attempts |].
  intros [res | last_exception]; done.
Qed.

Lemma outside_run_applescript script : outside (run_applescript script).
Proof.
  intros u. apply (in_block_bind (locked_block script));
    [apply lock_free_locked_block |].
  intros res u'. exact I.
Qed.

Lemma finished_outside p : finished p → outside p.
Proof. destruct p; done. Qed.

Lemma spawn_agrees scripts : agrees Idle (spawn scripts).
Proof.
  split; [done | | done].
  intros j t Hj _. unfold spawn in Hj. simpl in Hj.
  apply list_lookup_fmap_Some in Hj as (script & -> & _).
  eexists. split; [done | apply outside_run_applescript].
Qed.

Lemma agrees_lookup c s i t :
  agrees c s → tasks s !! i = Some t →
  match t with
  | Ready p => (c = Held i ∧ in_block p) ∨ (owner c ≠ Some i ∧ outside p)
  | InFlight k => c = Busy i ∧ ∀ o, in_block (k o)
  end.
Proof.
  intros [_ Ho Hw] Hi. destruct (decide (owner c = Some i)) as [Hc | Hc].
  - destruct c as [| i' | i']; simplify_eq/=;
      destruct Hw as (x & Hx & Hin); simplify_eq; auto.
  - destruct (Ho _ _ Hi Hc) as (p & -> & Hp). auto.
Qed.

Lemma agrees_resume c c' s i t b :
  agrees c s → is_Some (tasks s !! i) →
  (∀ j, j ≠ i → owner c ≠ Some j) →
  b = match c' with Idle => false | _ => true end →
  (owner c' ≠ Some i → ∃ p, t = Ready p ∧ outside p) →
  match c' with
  | Idle => True
  | Held i' => i' = i ∧ ∃ p, t = Ready p ∧ in_block p
  | Busy i' => i' = i ∧ ∃ k, t = InFlight k ∧ ∀ o, in_block (k o)
  end →
  agrees c' (LoopState b (<[i := t]> (tasks s))).
Proof.
  intros [_ Ho _] Hi Hown -> Hout Hin.
  apply lookup_lt_is_Some in Hi. split; simpl; [done | |].
  - intros j t' Hj Hc'. destruct (decide (j = i)) as [-> | Hne].
    + rewrite list_lookup_insert_eq in Hj by done. simplify_eq. auto.
    + rewrite list_lookup_insert_ne in Hj by done.
      apply (Ho j t' Hj), Hown, Hne.
  - destruct c' as [| i' | i']; [done | |].
    + destruct Hin as (-> & p & -> & Hp). exists p.
      by rewrite list_lookup_insert_eq.
    + destruct Hin as (-> & k & -> & Hk). exists k.
      by rewrite list_lookup_insert_eq.
Qed.

(** Every step the event loop can take is one the discipline allows. *)
Lemma step_agrees c s i o e s' :
  agrees c s → step i o s = Some (e, s') →
  ∃ c', observe c e = Some c' ∧ agrees c' s'.
Proof.
  intros Hag Hs. unfold step in Hs.
  destruct (tasks s !! i) as [t |] eqn:Hi; [| done].
  pose proof (agrees_lookup _ _ _ _ Hag Hi) as Ht.
  pose proof (agrees_locked _ _ Hag) as Hl.
  destruct t as [[r | X a k] | k]; [done | |].
  - destruct a; simpl in Ht.
    + destruct (_applescript_lock s) eqn:Hlk; [done |]. simplify_eq.
      destruct Ht as [[_ []] | [_ Hk]].
      destruct c; [| done | done].
      exists (Held i). split; [done |].
      eapply agrees_resume; eauto; simpl; try done; try congruence; eauto.
    + simplify_eq. destruct Ht as [[-> Hk] | [_ []]].
      exists Idle. split; [simpl; by rewrite decide_True |].
      eapply agrees_resume; eauto; simpl; try done; [congruence |].
      intros _. eexists. split; [done |]. apply finished_outside, Hk.
    + simplify_eq. destruct Ht as [[-> Hk] | [_ []]].
      exists (Busy i). split; [simpl; by rewrite decide_True |].
      eapply agrees_resume; eauto; simpl; try done; try congruence; eauto.
    + simplify_eq. destruct Ht as [[-> Hk] | [_ []]].
      exists (Held i). split; [simpl; by rewrite decide_True |].
      eapply agrees_resume; eauto; simpl; try done; try congruence; eauto.
  - simplify_eq. destruct Ht as [-> Hk].
    exists (Held i). split; [simpl; by rewrite decide_True |].
    eapply agrees_resume; eauto; simpl; try done; try congruence; eauto.
Qed.

Lemma exec_agrees sched : ∀ c s tr s',
  agrees c s → exec sched s = Some (tr, s') →
  ∃ c', monitor c tr = Some c' ∧ agrees c' s'.
Proof.
  induction sched as [| [i o] rest IH]; intros c s tr s' Hag He; simpl in He.
  - simplify_eq. by exists c.
  - destruct (step i o s) as [[e s1] |] eqn:Hs; [| done].
    destruct (exec rest s1) as [[tr1 s2] |] eqn:Hr; [| done]. simplify_eq.
    destruct (step_agrees _ _ _ _ _ _ Hag Hs) as (c1 & Hobs & Hag1).
    destruct (IH _ _ _ _ Hag1 Hr) as (c2 & Hmon & Hag2).
    exists c2. simpl. by rewrite Hobs.
Qed.

(** While an invocation runs, the next event is its end. *)
Lemma monitor_busy i tr c' b j sb :
  monitor (Busy i) tr = Some c' → tr !! b = Some (Started j sb) →
  ∃ c, (c < b)%nat ∧ tr !! c = Some (Ended i).
Proof.
  intros Hm Hb. destruct tr as [| e tr]; [done |]. simpl in Hm.
  destruct e; simpl in Hm; try done. case_decide; [subst | done].
  destruct b as [| b]; [done |]. exists 0%nat. split; [lia | done].
Qed.

Lemma monitor_disjoint tr : ∀ c c',
  monitor c tr = Some c' → disjoint_invocations tr.
Proof.
  induction tr as [| e tr IH]; intros c c' Hm a b i j sa sb Ha Hb Hlt;
    [done |].
  simpl in Hm. destruct (observe c e) as [c1 |] eqn:Hobs; [| done].
  destruct b as [| b]; [lia |]. simpl in Hb.
  destruct a as [| a]; simpl in Ha.
  - simplify_eq. destruct c; simpl in Hobs; try done.
    case_decide; [simplify_eq | done].
    destruct (monitor_busy _ _ _ _ _ _ Hm Hb) as (x & Hx & Hend).
    exists (S x). split; [lia | done].
  - destruct (IH _ _ Hm a b i j sa sb Ha Hb) as (x & Hx & Hend); [lia |].
    exists (S x). split; [lia | done].
Qed.

Lemma agrees_finished c s i r :
  agrees c s → tasks s !! i = Some (Ready (Ret r)) → owner c ≠ Some i.
Proof.
  intros Hag Hi. pose proof (agrees_lookup _ _ _ _ Hag Hi) as Ht.
  simpl in Ht. destruct Ht as [[_ []] | [Hc _]]. done.
Qed.

(** Once every call has ended, the lock is free. *)
Lemma agrees_all_finished c s :
  agrees c s →
  (∀ i t, tasks s !! i = Some t → ∃ r, t = Ready (Ret r)) →
  _applescript_lock s = false.
Proof.
  intros [Hl _ Hw] Hall. destruct c as [| i | i]; [done | |].
  - destruct Hw as (p & Hi & Hp). destruct (Hall _ _ Hi) as [r Hr].
    simplify_eq. done.
  - destruct Hw as (k & Hi & _). destruct (Hall _ _ Hi) as [r Hr]. done.
Qed.

End Serialization.

(** Calls that are not cancelled. Whatever the schedule of the event loop
    and whatever the interpreter answers, the events of any number of
    concurrent calls of [run_applescript] follow the lock discipline
    ([monitor]): a call invokes the interpreter only between its own
    acquire and release, no event of another call falls in between, and a
    call that has ended (by return or by exception) no longer owns the
    channel; once all calls have ended the lock is free. Hence the
    invocation intervals of concurrent calls are pairwise disjoint. *)
Theorem concurrent_invocations_never_overlap scripts sched tr s' :
  exec sched (spawn scripts) = Some (tr, s') →
  disjoint_invocations tr
  ∧ (∃ c, monitor Idle tr = Some c ∧
          ∀ i r, tasks s' !! i = Some (Ready (Ret r)) → owner c ≠ Some i)
  ∧ ((∀ i t, tasks s' !! i = Some t → ∃ r, t = Ready (Ret r)) →
     _applescript_lock s' = false).
Proof.
  intros He.
  destruct (exec_agrees _ _ _ _ _ (spawn_agrees scripts) He) as (c & Hm & Hag).
  split; [by eapply monitor_disjoint |]. split.
  - exists c. split; [done |]. intros i r. by apply agrees_finished.
  - by apply (agrees_all_finished c).
Qed.

Lemma concurrent_invocations_never_overlap_witness :
  exec demo_sched (spawn demo_scripts) = Some (demo_trace, demo_final) ∧
  disjoint_invocations demo_trace
  ∧ (∃ c, monitor Idle demo_trace = Some c ∧
          ∀ i r, tasks demo_final !! i = Some (Ready (Ret r)) → owner c ≠ Some i)
  ∧ ((∀ i t, tasks demo_final !! i = Some t → ∃ r, t = Ready (Ret r)) →
     _applescript_lock demo_final = false).
Proof.
  split; [vm_compute; reflexivity |].
  apply (concurrent_invocations_never_overlap demo_scripts demo_sched).
  vm_compute; reflexivity.
Defined.

(** A schedule without cancellation is a schedule of [exec]. *)
Lemma obey_all_resumes sched : ∀ w,
  cancelled w = [] →
  fst <$> obey_all (resumes sched) w = fst <$> exec sched (loop w).
Proof.
  induction sched as [| [i o] sched IH]; intros w Hw; [done |].
  cbn [resumes fmap list_fmap obey_all exec obey fst snd].
  rewrite Hw, bool_decide_eq_false_2 by apply not_elem_of_nil.
  destruct (step i o (loop w)) as [[e l] |]; [| done].
  specialize (IH (World l (holder_after (holder w) e) [] (threads w)) eq_refl).
  unfold resumes in IH. cbn [loop] in IH.
  destruct (obey_all _ _) as [[tr w'] |], (exec sched l) as [[tr' l'] |];
    simplify_eq/=; done.
Qed.

(** The same for the event loop that can cancel: as long as no call is
    cancelled, invocations never overlap. *)
Lemma calls_not_cancelled_never_overlap scripts sched tr w :
  obey_all (resumes sched) (world_of scripts) = Some (tr, w) →
  disjoint_invocations tr ∧ ¬ overlapping tr.
Proof.
  intros Hrun.
  pose proof (obey_all_resumes sched (world_of scripts) eq_refl) as Heq.
  rewrite Hrun in Heq. cbn [world_of loop] in Heq.
  destruct (exec sched (spawn scripts)) as [[tr' s'] |] eqn:He; [| done].
  simplify_eq/=.
  destruct (exec_agrees _ _ _ _ _ (spawn_agrees scripts) He) as (c & Hm & _).
  assert (disjoint_invocations tr') as Hd by by eapply monitor_disjoint.
  split; [done |].
  intros (a & b & c' & i & j & sa & sb & [Hab Hbc] & _ & Ha & Hb & _ & Hnone).
  destruct (Hd a b i j sa sb Ha Hb Hab) as (m & [Ham Hmb] & Hend).
  apply (Hnone m); [lia | done].
Qed.

(** C1. A call that is cancelled while its interpreter is running leaves
    the [async with] block at once: the lock is released and the
    interpreter runs on. The next call takes the lock and starts its own
    interpreter, so that two invocations are running at once: the run of
    the two calls below is a run of the event loop, it ends with both
    calls ended, the lock free and no interpreter running, its events are
    those listed, and in them the invocation of the second call starts
    after the one of the first call has started and before that one has
    ended. The events do not follow the lock discipline. *)
Theorem cancelled_call_lets_invocations_overlap :
  (∃ w, obey_all cancel_sched (world_of demo_scripts) = Some (cancel_trace, w)
        ∧ _applescript_lock (loop w) = false ∧ holder w = None
        ∧ cancelled w = [0%nat] ∧ threads w = []
        ∧ tasks (loop w) !! 1%nat = Some (Ready (Ret (Returned (lit "5")))))
  ∧ overlapping cancel_trace
  ∧ ¬ disjoint_invocations cancel_trace
  ∧ monitor Idle cancel_trace = None.
Proof.
  split; [| split; [| split]].
  - eexists. split; [vm_compute; reflexivity |]. done.
  - exists 1%nat, 4%nat, 5%nat, 0%nat, 1%nat, (lit "count"), (lit "oops").
    split; [lia |]. split; [done |]. repeat (split; [reflexivity |]).
    intros m Hm.
    destruct m as [| [| [| [| [| m]]]]]; try lia; discriminate.
  - intros Hd.
    destruct (Hd 1%nat 4%nat 0%nat 1%nat (lit "count") (lit "oops")
                eq_refl eq_refl) as (c & Hc & Hend); [lia |].
    destruct c as [| [| [| [| c]]]]; try lia; discriminate.
  - reflexivity.
Qed.

(** While the first call holds the lock, whether its invocation is running
    or not, the second call cannot be resumed: it waits for the lock. *)
Example second_call_waits :
  exec [(0, Completed 0 [] []); (1, Completed 0 [] [])]%nat (spawn demo_scripts)
  = None
  ∧ exec [(0, Completed 0 [] []); (0, Completed 0 [] []); (1, Completed 0 [] [])]%nat
      (spawn demo_scripts)
    = None.
Proof. split; reflexivity. Qed.

(** ** Stripping, by what it removes *)

Section Trimming.

Lemma lstrip_spec s :
  ∃ lead, s = lead ++ lstrip s ∧ all_space lead
          ∧ ∀ c, head (lstrip s) = Some c → isspace c = false.
Proof.
  induction s as [| a s (lead & Hs & Hl & Hh)]; simpl.
  - exists []. split; [done |]. split; [constructor | done].
  - destruct (isspace a) eqn:Ha.
    + exists (a :: lead). split; [by rewrite Hs at 1 |].
      split; [by constructor | done].
    + exists []. split; [done |]. split; [constructor |].
      intros c [= <-]. done.
Qed.

Lemma rstrip_spec s :
  ∃ trail, s = rstrip s ++ trail ∧ all_space trail
           ∧ ∀ c, last (rstrip s) = Some c → isspace c = false.
Proof.
  destruct (lstrip_spec (reverse s)) as (lead & Hs & Hl & Hh).
  exists (reverse lead). split; [| split].
  - unfold rstrip. rewrite <- reverse_app, <- Hs. by rewrite reverse_involutive.
  - by apply Forall_reverse.
  - intros c. unfold rstrip. rewrite last_reverse. apply Hh.
Qed.

Lemma strip_trimmed s : trimmed_of s (strip s).
Proof.
  destruct (lstrip_spec s) as (lead & Hs & Hl & Hh).
  destruct (rstrip_spec (lstrip s)) as (trail & Hr & Ht & Hlast).
  unfold strip. split; [| split].
  - exists lead, trail. by rewrite <- Hr.
  - intros c Hc. apply Hh. rewrite Hr.
    destruct (rstrip (lstrip s)); [done |]. done.
  - done.
Qed.


Lemma no_outer_space_strip s : no_outer_space s → strip s = s.
Proof.
  intros [Hh Hl].
  assert (Hlstrip : ∀ x, (∀ c, head x = Some c → isspace c = false) →
                         lstrip x = x).
  { intros [| a x] H; simpl; [done |]. by rewrite (H a). }
  unfold strip, rstrip. rewrite (Hlstrip s Hh).
  rewrite Hlstrip; [by rewrite reverse_involutive |].
  intros c. rewrite head_reverse. apply Hl.
Qed.

Lemma lstrip_all_space lead s : all_space lead → lstrip (lead ++ s) = lstrip s.
Proof. induction 1 as [| c lead Hc _ IH]; simpl; [done |]. by rewrite Hc. Qed.

Lemma trimmed_of_strip s t : trimmed_of s t → strip s = t.
Proof.
  intros [(lead & trail & -> & Hlead & Htrail) Ht].
  unfold strip. rewrite lstrip_all_space by done.
  destruct t as [| c t].
  - simpl. replace trail with (trail ++ []) by apply app_nil_r.
    by rewrite lstrip_all_space.
  - assert (lstrip ((c :: t) ++ trail) = (c :: t) ++ trail) as ->.
    { simpl. by rewrite (proj1 Ht c). }
    unfold rstrip. rewrite reverse_app.
    rewrite lstrip_all_space by by apply Forall_reverse.
    rewrite <- (no_outer_space_strip (c :: t) Ht) at 2.
    unfold strip, rstrip. simpl. by rewrite (proj1 Ht c).
Qed.

End Trimming.

(** ** One call: retries, backoff and classification *)

Section Retry.

Variable script : str.
Variable env : nat → attempt_outcome.

Ltac unfold_engine :=
  unfold execute, run_applescript, locked_block; simpl.

Ltac case_engine :=
  match goal with
  | H : env ?n = _ |- context [env ?n] => rewrite H; simpl
  | |- context [match env ?n with _ => _ end] =>
      destruct (env n) as [? ? ? | [? | ? | ?]] eqn:?; simpl
  | |- context [bool_decide ?P] => case_bool_decide; simpl
  | |- context [if contains ?a ?b then _ else _] =>
      destruct (contains a b) eqn:?; simpl
  end.

(** C4. A first invocation that exits with status 0 ends the call: the
    result is its standard output without the leading and trailing
    whitespace (the output is that result between two runs of whitespace,
    and the result neither begins nor ends with whitespace), and the
    interpreter was invoked once. *)
Theorem success_on_first_attempt stdout stderr :
  env 0%nat = Completed 0 stdout stderr →
  execute env script
  = (Returned (strip stdout), [EvAcquire; EvInvoke script; EvRelease])
  ∧ trimmed_of stdout (strip stdout)
  ∧ invocations (execute env script).2 = 1%nat.
Proof.
  intros H0. split; [| split; [apply strip_trimmed |]].
  - unfold_engine. repeat case_engine. done.
  - unfold_engine. repeat case_engine. done.
Qed.

(** C2. When the attempts before attempt [k] timed out and attempt [k]
    ends in a non-zero exit status, a missing interpreter or any other
    exception, the call raises at once: attempt [k] is the last
    invocation. With [k = 0] the interpreter is invoked exactly once. *)
Theorem only_timeouts_are_retried (k : nat) :
  (k < 3)%nat →
  (∀ j, (j < k)%nat → ∃ str_e, env j = Raises (ExTimeoutExpired str_e)) →
  let '(res, tr) := execute env script in
  match env k with
  | Completed returncode stdout stderr =>
      returncode ≠ 0%Z →
      res = Raised (ExException
              (lit "AppleScript error (code " ++ str_of_int returncode
                 ++ lit "): "
                 ++ (if bool_decide (stderr ≠ []) then strip stderr
                     else lit "Unknown AppleScript error")))
      ∧ invocations tr = S k
  | Raises (ExFileNotFoundError _) =>
      res = Raised (ExException
              (lit "osascript not found. This tool requires macOS with AppleScript support."))
      ∧ invocations tr = S k
  | Raises (ExException str_e) =>
      res = Raised (ExException
              (if contains str_e (lit "AppleScript error") then str_e
               else lit "AppleScript execution failed: " ++ str_e))
      ∧ invocations tr = S k
  | Raises (ExTimeoutExpired _) => True
  end.
Proof.
  intros Hk Hbefore.
  destruct k as [| [| [| k]]]; [| | | lia].
  - unfold_engine. repeat case_engine; done.
  - destruct (Hbefore 0%nat) as [m0 H0]; [lia |].
    unfold_engine. repeat case_engine; done.
  - destruct (Hbefore 0%nat) as [m0 H0]; [lia |].
    destruct (Hbefore 1%nat) as [m1 H1]; [lia |].
    unfold_engine. repeat case_engine; done.
Qed.

(** C3. A call invokes the interpreter at most three times. After a first
    attempt that timed out it sleeps 2 seconds and invokes again; after a
    second one it sleeps 4 seconds and invokes a third time; when the third
    attempt times out too, the call raises, without sleeping again, an
    exception whose message is the fixed text about an unresponsive
    application, whatever the text of the timeout exceptions was. *)
Theorem timeouts_are_retried_with_backoff :
  let '(res, tr) := execute env script in
  (invocations tr ≤ 3)%nat
  ∧ (∀ m0, env 0%nat = Raises (ExTimeoutExpired m0) →
       ∃ rest, tr = [EvAcquire; EvInvoke script; EvSleep 2; EvInvoke script]
                    ++ rest)
  ∧ (∀ m0 m1, env 0%nat = Raises (ExTimeoutExpired m0) →
       env 1%nat = Raises (ExTimeoutExpired m1) →
       ∃ rest, tr = [EvAcquire; EvInvoke script; EvSleep 2; EvInvoke script;
                     EvSleep 4; EvInvoke script] ++ rest)
  ∧ (∀ m0 m1 m2, env 0%nat = Raises (ExTimeoutExpired m0) →
       env 1%nat = Raises (ExTimeoutExpired m1) →
       env 2%nat = Raises (ExTimeoutExpired m2) →
       res = Raised (ExException
               (lit "AppleScript execution timed out after 3 attempts. Apple Mail may be unresponsive."))
       ∧ tr = [EvAcquire; EvInvoke script; EvSleep 2; EvInvoke script;
               EvSleep 4; EvInvoke script; EvRelease]).
Proof.
  unfold_engine.
  repeat case_engine;
    (split; [unfold invocations; simpl; lia |]);
    repeat split; intros; simplify_eq; eauto.
Qed.


End Retry.

(** ** Python strings: lemmas *)

Section PyLemmas.

Lemma split_nonempty sep s : split sep s ≠ [].
Proof. destruct s as [| c s]; simpl; [done |]. repeat case_match; done. Qed.

Lemma split_no_sep sep s : sep ∉ s → split sep s = [s].
Proof.
  induction s as [| c s IH]; intros Hs; simpl; [done |].
  apply not_elem_of_cons in Hs as [Hc Hs].
  destruct (N.eqb_spec c sep); [congruence |]. by rewrite IH.
Qed.

Lemma split_app_sep sep a b :
  sep ∉ a → split sep (a ++ sep :: b) = a :: split sep b.
Proof.
  induction a as [| c a IH]; intros Ha; simpl.
  - by rewrite N.eqb_refl.
  - apply not_elem_of_cons in Ha as [Hc Ha].
    destruct (N.eqb_spec c sep); [congruence |]. by rewrite IH.
Qed.

Lemma split_join ls :
  Forall (λ l, LF ∉ l) ls → ls ≠ [] → split LF (join [LF] ls) = ls.
Proof.
  induction 1 as [| l ls Hl Hls IH]; intros Hne; [done |].
  destruct ls as [| l' ls]; simpl.
  - by apply split_no_sep.
  - rewrite split_app_sep by done. f_equal. by apply IH.
Qed.

Lemma length_lstrip s : (length (lstrip s) ≤ length s)%nat.
Proof. induction s as [| c s IH]; simpl; [done |]. case_match; simpl; lia. Qed.

Lemma length_rstrip s : (length (rstrip s) ≤ length s)%nat.
Proof.
  unfold rstrip. rewrite length_reverse.
  etrans; [apply length_lstrip |]. by rewrite length_reverse.
Qed.

Lemma lstrip_id_or_shorter s :
  lstrip s = s ∨ (length (lstrip s) < length s)%nat.
Proof.
  destruct s as [| c s]; simpl; [by left |].
  case_match; [right | by left]. pose proof (length_lstrip s). lia.
Qed.

(** A stripped string has no whitespace to strip on either side. *)
Lemma strip_id_sides s : strip s = s → lstrip s = s ∧ rstrip s = s.
Proof.
  intros Hs. assert (lstrip s = s) as Hl.
  { destruct (lstrip_id_or_shorter s) as [| Hlt]; [done |].
    pose proof (length_rstrip (lstrip s)) as Hr.
    unfold strip in Hs. rewrite Hs in Hr. lia. }
  split; [done |]. unfold strip in Hs. by rewrite Hl in Hs.
Qed.

Lemma lstrip_id_head c s : lstrip (c :: s) = c :: s → isspace c = false.
Proof.
  simpl. destruct (isspace c); [| done]. intros Hs.
  pose proof (length_lstrip s) as Hl. rewrite Hs in Hl. simpl in Hl. lia.
Qed.

Lemma lstrip_app_id s t : s ≠ [] → lstrip s = s → lstrip (s ++ t) = s ++ t.
Proof.
  destruct s as [| c s]; [done |]. intros _ Hs.
  apply lstrip_id_head in Hs. simpl. by rewrite Hs.
Qed.

Lemma rstrip_app_id p s : s ≠ [] → rstrip s = s → rstrip (p ++ s) = p ++ s.
Proof.
  intros Hne Hs. unfold rstrip in *. rewrite reverse_app.
  assert (lstrip (reverse s) = reverse s) as Hr.
  { rewrite <- Hs at 2. by rewrite reverse_involutive. }
  rewrite lstrip_app_id; [| | done].
  - by rewrite <- reverse_app, reverse_involutive.
  - intros Hnil. apply Hne. by rewrite <- (reverse_involutive s), Hnil.
Qed.

Lemma strip_nil : strip [] = [].
Proof. done. Qed.

End PyLemmas.

(** ** The parser: the loop *)

Section Loop.

Lemma loop_body_classify raw v :
  loop_body raw v =
  match classify raw with
  | Skipped | Unrecognized => (Continue, v)
  | RecordStart is_read subject =>
      (Continue,
       Vars (append_current v)
            (<["subject" := VStr subject]> (<["is_read" := VBool is_read]> ∅)))
  | FieldLine key value =>
      (Continue, Vars (emails v) (<[key := VStr value]> (current_email v)))
  | Terminator => (Break, Vars (append_current v) (current_email v))
  end.
Proof. unfold loop_body, classify. repeat case_match; done. Qed.

Lemma for_lines_cons raw rest v :
  for_lines (raw :: rest) v =
  match classify raw with
  | Skipped | Unrecognized => for_lines rest v
  | RecordStart is_read subject =>
      for_lines rest
        (Vars (append_current v)
           (<["subject" := VStr subject]> (<["is_read" := VBool is_read]> ∅)))
  | FieldLine key value =>
      for_lines rest (Vars (emails v) (<[key := VStr value]> (current_email v)))
  | Terminator => Vars (append_current v) (current_email v)
  end.
Proof.
  cbn [for_lines]. rewrite loop_body_classify. by destruct (classify raw).
Qed.

Lemma classify_terminator raw :
  begins raw (lit "TOTAL EMAILS") → classify raw = Terminator.
Proof.
  intros H. unfold begins in H. unfold classify.
  destruct (strip raw) as [| c s]; [done |].
  cbn in H. apply andb_prop in H as [Hc H]. apply N.eqb_eq in Hc. subst c.
  cbn. by rewrite H.
Qed.

Lemma classify_field raw prefix key :
  (prefix, key) ∈ field_prefixes → begins raw prefix →
  ∃ value, classify raw = FieldLine key value.
Proof.
  unfold field_prefixes. rewrite !elem_of_cons, elem_of_nil.
  intros [E | [E | [E | []]]] H; simplify_eq; unfold begins in H;
    unfold classify; destruct (strip raw) as [| c s]; try done;
    cbn in H; apply andb_prop in H as [Hc H]; apply N.eqb_eq in Hc; subst c;
    cbn; rewrite H; eauto.
Qed.

Lemma classify_unrecognized raw : unrecognized raw → classify raw = Unrecognized.
Proof.
  intros [Hne Hall]. unfold prefixes in Hall.
  rewrite !Forall_cons in Hall.
  destruct Hall as (H1 & H2 & H3 & H4 & H5 & H6 & H7 & H8 & H9 & H10 & _).
  unfold begins in *. unfold classify.
  apply not_true_is_false in H1, H2, H3, H4, H5, H6, H7, H8, H9, H10.
  rewrite bool_decide_eq_false_2 by done.
  repeat match goal with H : startswith _ _ = false |- _ => rewrite H; clear H end.
  done.
Qed.

Lemma classify_record_start raw is_read subject :
  classify raw = RecordStart is_read subject → record_start raw.
Proof.
  unfold classify, record_start, begins. repeat case_match; try done.
  intros _. by apply orb_prop.
Qed.

Lemma classify_terminator_inv raw :
  classify raw = Terminator → begins raw (lit "TOTAL EMAILS").
Proof. unfold classify, begins. repeat case_match; done. Qed.

Lemma classify_field_key raw key value :
  classify raw = FieldLine key value → key ≠ "subject".
Proof. unfold classify. repeat case_match; intros; simplify_eq; done. Qed.

Lemma classify_field_value raw prefix key :
  (prefix, key) ∈ field_prefixes → begins raw prefix →
  classify raw = FieldLine key (strip (drop (length prefix) (strip raw))).
Proof.
  unfold field_prefixes. rewrite !elem_of_cons, elem_of_nil.
  intros [E | [E | [E | []]]] H; simplify_eq; unfold begins in H;
    unfold classify; destruct (strip raw) as [| c s]; try done;
    cbn in H; apply andb_prop in H as [Hc H]; apply N.eqb_eq in Hc; subst c;
    cbn; rewrite H; done.
Qed.

Lemma classify_field_prefix raw prefix key value :
  (prefix, key) ∈ field_prefixes → classify raw = FieldLine key value →
  begins raw prefix.
Proof.
  unfold field_prefixes. rewrite !elem_of_cons, elem_of_nil.
  intros [E | [E | [E | []]]]; simplify_eq; unfold classify, begins;
    repeat case_match; intros; simplify_eq; done.
Qed.

Lemma record_start_classify raw :
  record_start raw → ∃ is_read subject, classify raw = RecordStart is_read subject.
Proof.
  unfold record_start, begins, classify.
  destruct (strip raw) as [| c s]; [by intros [|] |].
  intros [H | H]; cbn in H; apply andb_prop in H as [Hc _];
    apply N.eqb_eq in Hc; subst c; destruct s; cbn; eauto.
Qed.

Lemma startswith_drop s p :
  startswith s p = true → s = p ++ drop (length p) s.
Proof.
  revert s. induction p as [| a p IH]; intros s H; [done |].
  destruct s as [| c s]; [done |]. simpl in H.
  apply andb_prop in H as [Hc H]. apply N.eqb_eq in Hc. subst c.
  simpl. f_equal. by apply IH.
Qed.

End Loop.

(** ** The parser: scanning *)

Section Scan.

Lemma truthy_insert k x (d : dict) : truthy (<[k := x]> d) = true.
Proof. apply bool_decide_eq_true, insert_non_empty. Qed.

Lemma truthy_lookup k (d : dict) : is_Some (d !! k) → truthy d = true.
Proof.
  intros [x Hx]. apply bool_decide_eq_true. intros ->.
  by rewrite lookup_empty in Hx.
Qed.

Lemma append_current_prefix v : ∃ more, append_current v = emails v ++ more.
Proof.
  unfold append_current. destruct (truthy _); [by eexists |].
  exists []. by rewrite app_nil_r.
Qed.

Lemma finish_prefix v : ∃ more, finish v = emails v ++ more.
Proof.
  unfold finish. destruct (_ && _); [by eexists |].
  exists []. by rewrite app_nil_r.
Qed.

(** After the terminator has appended the open record, the statement
    after the loop does not append it again. *)
Lemma finish_appended v :
  finish (Vars (append_current v) (current_email v)) = append_current v.
Proof.
  unfold finish, append_current. simpl.
  destruct (truthy (current_email v)) eqn:Ht; simpl; [| done].
  rewrite bool_decide_eq_true_2; [done |]. set_solver.
Qed.

Lemma finish_for_lines_prefix ls : ∀ v,
  ∃ more, finish (for_lines ls v) = emails v ++ more.
Proof.
  induction ls as [| raw ls IH]; intros v; [apply finish_prefix |].
  rewrite for_lines_cons. destruct (classify raw); try apply IH.
  - destruct (IH (Vars (append_current v)
      (<["subject" := VStr subject]> (<["is_read" := VBool is_read]> ∅))))
      as [more Hmore].
    destruct (append_current_prefix v) as [more' Hmore'].
    simpl in Hmore. rewrite Hmore, Hmore', <- app_assoc. by eexists.
  - apply (IH (Vars (emails v) (<[key := VStr value]> (current_email v)))).
  - rewrite finish_appended. apply append_current_prefix.
Qed.

Lemma for_lines_app_terminator pre t post : ∀ v,
  begins t (lit "TOTAL EMAILS") →
  for_lines (pre ++ t :: post) v = for_lines (pre ++ [t]) v.
Proof.
  intros v Ht. revert v.
  induction pre as [| raw pre IH]; intros v; simpl app; rewrite !for_lines_cons.
  - by rewrite (classify_terminator _ Ht).
  - destruct (classify raw); auto.
Qed.

Lemma for_lines_app pre rest : ∀ v,
  Forall (λ l, ¬ begins l (lit "TOTAL EMAILS")) pre →
  for_lines (pre ++ rest) v = for_lines rest (for_lines pre v).
Proof.
  intros v Hpre. revert v.
  induction Hpre as [| raw pre Hraw Hpre IH]; intros v; [done |].
  simpl app. rewrite !for_lines_cons.
  destruct (classify raw) eqn:Hc; auto.
  by apply classify_terminator_inv in Hc.
Qed.

Lemma for_lines_app_unrecognized pre l post : ∀ v,
  unrecognized l → for_lines (pre ++ l :: post) v = for_lines (pre ++ post) v.
Proof.
  intros v Hl. revert v.
  induction pre as [| raw pre IH]; intros v; simpl app.
  - by rewrite for_lines_cons, (classify_unrecognized _ Hl).
  - rewrite !for_lines_cons. destruct (classify raw); auto.
Qed.

Lemma parse_join ls :
  Forall (λ l, LF ∉ l) ls → parse_email_list (join [LF] ls) = parse_lines ls.
Proof.
  intros Hls. unfold parse_email_list. destruct ls as [| l ls]; [done |].
  by rewrite split_join.
Qed.

Lemma length_append_current v : length (append_current v) = weight v.
Proof.
  unfold append_current, weight. destruct (truthy _); [| lia].
  rewrite length_app. simpl. lia.
Qed.

Lemma length_finish v : (length (finish v) ≤ weight v)%nat.
Proof.
  unfold finish, weight. destruct (truthy _); simpl; [| lia].
  destruct (negb _); [rewrite length_app; simpl |]; lia.
Qed.

Lemma length_finish_for_lines ls : ∀ v,
  (length (finish (for_lines ls v)) ≤ weight v + length ls)%nat.
Proof.
  induction ls as [| raw ls IH]; intros v.
  - pose proof (length_finish v). simpl. lia.
  - rewrite for_lines_cons. cbn [length].
    destruct (classify raw).
    + specialize (IH v). lia.
    + etrans; [apply IH |]. unfold weight at 1. cbn [emails current_email].
      rewrite truthy_insert, length_append_current. lia.
    + etrans; [apply IH |]. unfold weight. cbn [emails current_email].
      rewrite truthy_insert. destruct (truthy _); lia.
    + rewrite finish_appended, length_append_current. lia.
    + specialize (IH v). lia.
Qed.

End Scan.

(** ** The parser: properties *)

Section ParserProperties.

(** C5. A line that begins, once stripped, with [TOTAL EMAILS] ends the
    scan: the lines after it change nothing, and when it is the first
    such line the result is what the lines before it had appended,
    followed by the open record, if there is one, appended once. The
    example of the specification parses to its one record. *)
Theorem terminator_ends_scanning output pre t post :
  split LF output = pre ++ t :: post →
  begins t (lit "TOTAL EMAILS") →
  parse_email_list output = parse_lines (pre ++ [t])
  ∧ (Forall (λ l, ¬ begins l (lit "TOTAL EMAILS")) pre →
     parse_email_list output = append_current (for_lines pre (Vars [] ∅)))
  ∧ parse_email_list example_output = [example_record].
Proof.
  intros Hsplit Ht. unfold parse_email_list at 1 2. rewrite Hsplit.
  unfold parse_lines. split; [| split].
  - by rewrite for_lines_app_terminator.
  - intros Hpre. rewrite for_lines_app by done.
    rewrite for_lines_cons, (classify_terminator _ Ht).
    apply finish_appended.
  - vm_compute. reflexivity.
Qed.

(** C6, at two equal record starts: the second record is compared with
    the records already appended and dropped, so one record comes back;
    with a terminator line after them the same two lines give two. *)
Theorem equal_record_starts_give_one_record :
  parse_email_list twice_output = [record_A]
  ∧ parse_email_list (twice_output ++ [LF] ++ lit "TOTAL EMAILS: 2")
    = [record_A; record_A].
Proof. split; vm_compute; reflexivity. Qed.

(** C7 fails: the lone line [From: x] yields a record, and one without a
    subject, where the empty input yields none. *)
Lemma field_line_without_record_is_kept :
  parse_email_list (lit "From: x") = [ {[ "sender" := VStr (lit "x") ]} ]
  ∧ parse_email_list [] = []
  ∧ ¬ (parse_email_list (join [LF] ([] ++ lit "From: x" :: []))
       = parse_email_list (join [LF] ([] ++ [])))
  ∧ ∃ r, r ∈ parse_email_list (lit "From: x") ∧ r !! "subject" = None.
Proof.
  assert (parse_email_list (lit "From: x") = [ {[ "sender" := VStr (lit "x") ]} ])
    as E by (vm_compute; reflexivity).
  split; [done |]. split; [done |]. split.
  - simpl join. rewrite E. done.
  - rewrite E. eexists. split; [apply list_elem_of_here |]. done.
Qed.

(** C8. The parser is a total function: every operation of the source is
    defined on every string, dictionary and list, and the result is a
    list with at most one record per line. A non-blank line that matches
    no prefix leaves both loop variables as they are, so the input parses
    as it does without that line. *)
Theorem unrecognized_lines_are_ignored pre l post :
  unrecognized l →
  (∀ v, loop_body l v = (Continue, v))
  ∧ parse_lines (pre ++ l :: post) = parse_lines (pre ++ post)
  ∧ (Forall (λ l', LF ∉ l') (pre ++ l :: post) →
     parse_email_list (join [LF] (pre ++ l :: post))
     = parse_email_list (join [LF] (pre ++ post)))
  ∧ ∀ output, ∃ records,
      parse_email_list output = records
      ∧ (length records ≤ length (split LF output))%nat.
Proof.
  intros Hl. split; [| split; [| split]].
  - intros v. by rewrite loop_body_classify, (classify_unrecognized _ Hl).
  - unfold parse_lines. by rewrite for_lines_app_unrecognized.
  - intros Hlf. rewrite !parse_join; [| | done].
    + unfold parse_lines. by rewrite for_lines_app_unrecognized.
    + apply Forall_app in Hlf as [Hpre Hpost]. apply Forall_app.
      split; [done |]. by apply Forall_cons in Hpost as [_ Hpost].
  - intros output. eexists. split; [done |].
    unfold parse_email_list, parse_lines.
    etrans; [apply length_finish_for_lines |]. done.
Qed.

End ParserProperties.

Section FieldBeforeRecord.

Lemma no_record_before pre : ∀ v,
  Forall (λ l, ¬ record_start l ∧ ¬ begins l (lit "TOTAL EMAILS")) pre →
  emails v = [] → current_email v !! "subject" = None →
  emails (for_lines pre v) = []
  ∧ current_email (for_lines pre v) !! "subject" = None.
Proof.
  intros v Hpre. revert v.
  induction Hpre as [| raw pre [Hstart Hterm] Hpre IH]; intros v He Hs; [done |].
  rewrite for_lines_cons. destruct (classify raw) eqn:Hc; auto.
  - by apply classify_record_start in Hc.
  - apply IH; simpl; [done |].
    rewrite lookup_insert_ne; [done |]. by eapply classify_field_key.
  - by apply classify_terminator_inv in Hc.
Qed.

Lemma open_field_is_emitted key post : ∀ v,
  emails v = [] → current_email v !! "subject" = None →
  is_Some (current_email v !! key) →
  ∃ r rest, finish (for_lines post v) = r :: rest
            ∧ r !! "subject" = None ∧ is_Some (r !! key).
Proof.
  induction post as [| raw post IH]; intros v He Hs Hk.
  - exists (current_email v), []. split; [| done].
    cbn [for_lines]. unfold finish. rewrite He, (truthy_lookup key) by done.
    done.
  - assert (append_current v = [current_email v]) as Happ.
    { unfold append_current. by rewrite He, (truthy_lookup key). }
    rewrite for_lines_cons. destruct (classify raw) eqn:Hc; auto.
    + rewrite Happ.
      destruct (finish_for_lines_prefix post (Vars [current_email v]
        (<["subject" := VStr subject]> (<["is_read" := VBool is_read]> ∅))))
        as [more Hmore].
      simpl in Hmore. rewrite Hmore. by eexists _, _.
    + apply IH; simpl; [done | |].
      * rewrite lookup_insert_ne; [done |]. by eapply classify_field_key.
      * rewrite lookup_insert. case_decide; [done |]. done.
    + rewrite finish_appended, Happ. by eexists _, _.
Qed.

Lemma open_field_keeps_its_value prefix key value mid post : ∀ v,
  (prefix, key) ∈ field_prefixes →
  Forall (λ l, ¬ begins l prefix) mid → closes post →
  emails v = [] → current_email v !! "subject" = None →
  current_email v !! key = Some (VStr value) →
  ∃ r rest, finish (for_lines (mid ++ post) v) = r :: rest
            ∧ r !! key = Some (VStr value).
Proof.
  intros v Hin Hmid Hpost. revert v.
  assert (∀ v, emails v = [] → current_email v !! key = Some (VStr value) →
               append_current v = [current_email v]) as Happ.
  { intros v He Hk. unfold append_current.
    by rewrite He, (truthy_lookup key) by by rewrite Hk. }
  assert (∀ v lines, emails v = [] →
            current_email v !! key = Some (VStr value) →
            closes lines →
            ∃ r rest, finish (for_lines lines v) = r :: rest
                      ∧ r !! key = Some (VStr value)) as Hclosed.
  { intros v [| l lines] He Hk Hl.
    - exists (current_email v), []. split; [| done].
      cbn [for_lines]. unfold finish.
      by rewrite He, (truthy_lookup key) by by rewrite Hk.
    - rewrite for_lines_cons. destruct Hl as [Hl | Hl].
      + apply record_start_classify in Hl as (is_read & subject & Hc).
        rewrite Hc, Happ by done.
        destruct (finish_for_lines_prefix lines (Vars [current_email v]
          (<["subject" := VStr subject]> (<["is_read" := VBool is_read]> ∅))))
          as [more Hmore].
        simpl in Hmore. rewrite Hmore. by eexists _, _.
      + rewrite (classify_terminator _ Hl), finish_appended, Happ by done.
        by eexists _, _. }
  induction Hmid as [| raw mid Hraw Hmid IH]; intros v He Hs Hk.
  - by apply Hclosed.
  - cbn [app]. rewrite for_lines_cons. destruct (classify raw) eqn:Hc; auto.
    + rewrite Happ by done.
      destruct (finish_for_lines_prefix (mid ++ post) (Vars [current_email v]
        (<["subject" := VStr subject]> (<["is_read" := VBool is_read]> ∅))))
        as [more Hmore].
      simpl in Hmore. rewrite Hmore. by eexists _, _.
    + apply IH; simpl; [done | |].
      * rewrite lookup_insert_ne; [done |]. by eapply classify_field_key.
      * rewrite lookup_insert_ne; [done |]. intros <-.
        apply Hraw. by eapply classify_field_prefix.
    + rewrite finish_appended, Happ by done. by eexists _, _.
Qed.

(** C7, as the code has it. A field line scanned before any record start
    (and before any terminator) is kept. Its value is what follows the
    prefix in the line, both taken without their outer whitespace. After
    the line the dictionary the loop started with holds that value under
    the key of the field, no record has been appended, and the dictionary
    has no subject. That dictionary comes back as the first record of the
    result, without a subject and with the field; the field has that value
    when no line sets it again before the next record start, the
    terminator or the end of the text. *)
Theorem field_line_before_any_record output pre f post prefix key :
  split LF output = pre ++ f :: post →
  Forall (λ l, ¬ record_start l ∧ ¬ begins l (lit "TOTAL EMAILS")) pre →
  (prefix, key) ∈ field_prefixes →
  begins f prefix →
  field_value prefix f (strip (drop (length prefix) (strip f)))
  ∧ emails (for_lines (pre ++ [f]) (Vars [] ∅)) = []
  ∧ current_email (for_lines (pre ++ [f]) (Vars [] ∅)) !! "subject" = None
  ∧ current_email (for_lines (pre ++ [f]) (Vars [] ∅)) !! key
    = Some (VStr (strip (drop (length prefix) (strip f))))
  ∧ ∃ r rest, parse_email_list output = r :: rest
      ∧ r !! "subject" = None ∧ is_Some (r !! key)
      ∧ (∀ mid post', post = mid ++ post' →
           Forall (λ l, ¬ begins l prefix) mid → closes post' →
           r !! key = Some (VStr (strip (drop (length prefix) (strip f))))).
Proof.
  intros Hsplit Hpre Hin Hf.
  assert (Forall (λ l, ¬ begins l (lit "TOTAL EMAILS")) pre) as Hpre'.
  { eapply Forall_impl; [exact Hpre |]. by intros l [_ Hl]. }
  destruct (no_record_before pre (Vars [] ∅) Hpre) as [He Hs]; [done.. |].
  pose proof (classify_field_value _ _ _ Hin Hf) as Hc.
  assert (for_lines (pre ++ [f]) (Vars [] ∅)
          = Vars (emails (for_lines pre (Vars [] ∅)))
                 (<[key := VStr (strip (drop (length prefix) (strip f)))]>
                    (current_email (for_lines pre (Vars [] ∅))))) as Hscan.
  { rewrite for_lines_app by done. rewrite for_lines_cons, Hc. done. }
  assert (parse_email_list output
          = finish (for_lines post (for_lines (pre ++ [f]) (Vars [] ∅))))
    as Hparse.
  { unfold parse_email_list, parse_lines.
    rewrite Hsplit, Hscan, for_lines_app by done.
    by rewrite for_lines_cons, Hc. }
  assert (current_email (for_lines (pre ++ [f]) (Vars [] ∅)) !! "subject" = None)
    as Hsubject.
  { rewrite Hscan. simpl. rewrite lookup_insert_ne; [done |].
    by eapply classify_field_key. }
  assert (current_email (for_lines (pre ++ [f]) (Vars [] ∅)) !! key
          = Some (VStr (strip (drop (length prefix) (strip f))))) as Hkey.
  { rewrite Hscan. simpl. by rewrite lookup_insert_eq. }
  assert (emails (for_lines (pre ++ [f]) (Vars [] ∅)) = []) as Hnone.
  { by rewrite Hscan. }
  split; [| split; [done | split; [done | split; [done |]]]].
  { exists (strip f), (drop (length prefix) (strip f)).
    split; [apply strip_trimmed |]. split; [| apply strip_trimmed].
    by apply startswith_drop. }
  destruct (open_field_is_emitted key post _ Hnone Hsubject) as (r & rest & Hr & Hrs & Hrk).
  { by rewrite Hkey. }
  exists r, rest. rewrite Hparse. split; [done |]. split; [done |].
  split; [done |].
  intros mid post' -> Hmid Hpost'.
  destruct (open_field_keeps_its_value prefix key _ mid post' _ Hin Hmid Hpost'
              Hnone Hsubject Hkey) as (r' & rest' & Hr' & Hrk').
  rewrite Hr in Hr'. by simplify_eq.
Qed.

End FieldBeforeRecord.

Import Format.

Section RoundTrip.

Lemma lit_String a s : lit (String a s) = N_of_ascii a :: lit s.
Proof. done. Qed.

Lemma str_of_uint_no_LF d : LF ∉ lit (NilEmpty.string_of_uint d).
Proof.
  induction d; cbn [NilEmpty.string_of_uint]; [apply not_elem_of_nil | ..];
    rewrite lit_String; apply not_elem_of_cons; (split; [done | assumption]).
Qed.

Lemma str_of_int_no_LF n : LF ∉ str_of_int n.
Proof.
  unfold str_of_int. destruct (Z.to_int n) as [d | d];
    unfold NilZero.string_of_int, NilZero.string_of_uint.
  - destruct d; try apply str_of_uint_no_LF. compute_done.
  - rewrite lit_String. apply not_elem_of_cons. split; [done |].
    destruct d; try apply str_of_uint_no_LF. compute_done.
Qed.

Lemma split_unlines ls :
  Forall (λ l, LF ∉ l) ls → split LF (unlines ls) = ls ++ [[]].
Proof.
  unfold unlines. induction 1 as [| l ls Hl Hls IH]; [done |].
  cbn [fmap list_fmap concat app]. rewrite <- app_assoc.
  change ([LF] ++ ?x) with (LF :: x).
  by rewrite split_app_sep, IH.
Qed.

Lemma lstrip_app_nonspace a c b :
  isspace c = false → lstrip (a ++ c :: b) = lstrip a ++ c :: b.
Proof.
  intros Hc. induction a as [| x a IH]; simpl; [by rewrite Hc |].
  by destruct (isspace x).
Qed.

Lemma rstrip_app_nonspace p c s :
  isspace c = false → rstrip (p ++ c :: s) = p ++ c :: rstrip s.
Proof.
  intros Hc. unfold rstrip.
  rewrite reverse_app, reverse_cons, <- app_assoc. simpl.
  rewrite lstrip_app_nonspace by done.
  by rewrite reverse_app, reverse_cons, reverse_involutive, <- app_assoc.
Qed.

(** What is left of [" " ++ v], for a stripped [v], once the line around
    it has been stripped: nothing when [v] is empty, all of it otherwise. *)
Lemma rstrip_space_clean v :
  strip v = v →
  strip (rstrip (0x20 :: v)) = v ∧ drop 1 (rstrip (0x20 :: v)) = v.
Proof.
  intros Hv. destruct (strip_id_sides _ Hv) as [Hl Hr].
  destruct v as [| c v]; [done |].
  assert (rstrip (0x20 :: c :: v) = 0x20 :: c :: v) as ->
    by exact (rstrip_app_id [0x20] (c :: v) ltac:(done) Hr).
  split; [| done]. unfold strip.
  change (lstrip (0x20 :: c :: v)) with (lstrip (c :: v)). by rewrite Hl.
Qed.

End RoundTrip.

Section RoundTripLines.

Lemma lstrip_spaces ws s :
  Forall (λ x, isspace x = true) ws → lstrip (ws ++ s) = lstrip s.
Proof. induction 1 as [| x ws Hx _ IH]; simpl; [done |]. by rewrite Hx. Qed.

(** Stripping an indented line whose text starts with the literal
    [q ++ [c]]: the indentation goes, the literal stays, the rest is
    stripped on the right. *)
Lemma strip_core ws q c s :
  Forall (λ x, isspace x = true) ws →
  lstrip (q ++ [c]) = q ++ [c] → isspace c = false →
  strip (ws ++ q ++ c :: s) = q ++ c :: rstrip s.
Proof.
  intros Hws Hq Hc. unfold strip. rewrite lstrip_spaces by done.
  assert (lstrip (q ++ c :: s) = q ++ c :: s) as ->.
  { rewrite (assoc_L (++) q [c] s : q ++ c :: s = (q ++ [c]) ++ s).
    apply lstrip_app_id; [by destruct q | done]. }
  by apply rstrip_app_nonspace.
Qed.

Lemma startswith_nil s : startswith s [] = true.
Proof. by destruct s. Qed.

(** Evaluates the prefix tests on a line whose first characters are known. *)
Ltac eval_prefixes :=
  repeat match goal with
         | |- context [lit ?s] =>
             let v := eval vm_compute in (lit s) in change (lit s) with v
         end;
  cbn -[strip]; rewrite ?startswith_nil; cbn -[strip]; rewrite ?drop_0.

Lemma classify_marker_line e :
  clean (subject e) →
  classify ([marker e] ++ lit " " ++ subject e)
  = RecordStart (is_read e) (subject e).
Proof.
  intros [_ Hs]. destruct (rstrip_space_clean _ Hs) as [Hstrip Hdrop].
  assert (strip ([marker e] ++ lit " " ++ subject e)
          = marker e :: rstrip (0x20 :: subject e)) as Hline.
  { apply (strip_core [] [] (marker e) (0x20 :: subject e));
      [done | unfold marker; by destruct (is_read e)..]. }
  unfold classify. rewrite Hline. clear Hline.
  revert Hstrip Hdrop. generalize (rstrip (0x20 :: subject e)). intros X HX1 HX2.
  unfold marker. destruct (is_read e); eval_prefixes;
    by rewrite HX2, Hs.
Qed.

Lemma classify_field_line prefix key v :
  (prefix, key) ∈ field_prefixes → clean v →
  classify (lit "   " ++ prefix ++ lit " " ++ v) = FieldLine key v.
Proof.
  unfold field_prefixes. rewrite !elem_of_cons, elem_of_nil.
  intros Hin [_ Hv]. destruct (rstrip_space_clean _ Hv) as [Hstrip _].
  revert Hstrip. unfold classify.
  destruct Hin as [E | [E | [E | []]]]; simplify_eq.
  - rewrite (strip_core (lit "   ") (lit "From") 58 (0x20 :: v)
               ltac:(by repeat constructor) eq_refl eq_refl
             : strip (lit "   " ++ lit "From:" ++ lit " " ++ v) = _).
    generalize (rstrip (0x20 :: v)). intros X HX. eval_prefixes.
    by rewrite HX.
  - rewrite (strip_core (lit "   ") (lit "Date") 58 (0x20 :: v)
               ltac:(by repeat constructor) eq_refl eq_refl
             : strip (lit "   " ++ lit "Date:" ++ lit " " ++ v) = _).
    generalize (rstrip (0x20 :: v)). intros X HX. eval_prefixes.
    by rewrite HX.
  - rewrite (strip_core (lit "   ") (lit "Preview") 58 (0x20 :: v)
               ltac:(by repeat constructor) eq_refl eq_refl
             : strip (lit "   " ++ lit "Preview:" ++ lit " " ++ v) = _).
    generalize (rstrip (0x20 :: v)). intros X HX. eval_prefixes.
    by rewrite HX.
Qed.

Lemma classify_terminator_line count :
  classify (terminator_line count) = Terminator.
Proof.
  apply classify_terminator. unfold begins, terminator_line.
  rewrite (strip_core [] (lit "TOTAL EMAILS") 58
             (0x20 :: str_of_int (Z.of_nat count)) ltac:(done) eq_refl eq_refl
           : strip (lit "TOTAL EMAILS: " ++ _) = _).
  generalize (rstrip (0x20 :: str_of_int (Z.of_nat count))). intros X.
  eval_prefixes. done.
Qed.

Lemma for_lines_field prefix key value rest v :
  (prefix, key) ∈ field_prefixes → clean_field value →
  for_lines (field_line prefix value ++ rest) v
  = for_lines rest (Vars (emails v) (set_field key value (current_email v))).
Proof.
  intros Hin Hvalue. destruct value as [x |]; cbn [field_line app set_field].
  - by rewrite for_lines_cons, (classify_field_line _ _ _ Hin Hvalue).
  - by destruct v.
Qed.

(** The lines of one record close the open record and leave this one open. *)
Lemma for_lines_record e rest v :
  clean_email e →
  for_lines (record_lines e ++ rest) v
  = for_lines rest (Vars (append_current v) (to_dict e)).
Proof.
  intros (Hsubject & Hsender & Hdate & Hpreview). unfold record_lines.
  rewrite <- app_comm_cons, for_lines_cons, classify_marker_line by done.
  rewrite <- !app_assoc.
  rewrite (for_lines_field _ "sender") by (done || set_solver).
  rewrite (for_lines_field _ "date") by (done || set_solver).
  rewrite (for_lines_field _ "preview") by (done || set_solver).
  done.
Qed.

Lemma truthy_to_dict e : truthy (to_dict e) = true.
Proof.
  apply (truthy_lookup "subject"). unfold to_dict, set_field.
  destruct (preview e), (date e), (sender e);
    by repeat (rewrite lookup_insert_ne by done); rewrite lookup_insert_eq.
Qed.

Lemma for_lines_records es : ∀ rest v,
  Forall clean_email es →
  finish (for_lines (concat (record_lines <$> es)
                       ++ terminator_line (length es) :: rest) v)
  = append_current v ++ (to_dict <$> es).
Proof.
  intros rest v Hes. generalize (length es). intros count. revert v.
  induction Hes as [| e es He Hes IH]; intros v.
  - cbn [fmap list_fmap concat app].
    rewrite for_lines_cons, classify_terminator_line, finish_appended.
    by rewrite app_nil_r.
  - cbn [fmap list_fmap concat]. rewrite <- app_assoc.
    rewrite for_lines_record, IH by done.
    unfold append_current at 1. cbn [emails current_email].
    by rewrite truthy_to_dict, <- app_assoc.
Qed.

Lemma record_lines_no_LF e :
  clean_email e → Forall (λ l, LF ∉ l) (record_lines e).
Proof.
  intros ([Hsubject _] & Hsender & Hdate & Hpreview). unfold record_lines.
  apply Forall_cons. split.
  { rewrite !not_elem_of_app. split; [| split; [compute_done | done]].
    unfold marker. destruct (is_read e); compute_done. }
  rewrite !Forall_app. unfold field_line.
  destruct (sender e) as [x |], (date e) as [y |], (preview e) as [z |];
    repeat split; try apply Forall_nil_2;
    apply Forall_singleton; rewrite !not_elem_of_app;
    (split; [compute_done | split; [compute_done | split; [compute_done |]]]);
    first [apply Hsender | apply Hdate | apply Hpreview].
Qed.

(** C9, as the code has it. Records whose texts hold no line feed and have
    nothing to strip come back from the parser as they were written, in
    the same order. *)
Theorem parse_serialize es :
  Forall clean_email es →
  parse_email_list (serialize es) = to_dict <$> es.
Proof.
  intros Hes. unfold parse_email_list, serialize. rewrite split_unlines.
  - unfold parse_lines. rewrite <- app_assoc.
    change ([terminator_line (length es)] ++ [[]])
      with (terminator_line (length es) :: [[]]).
    by rewrite for_lines_records.
  - apply Forall_app. split.
    + induction Hes as [| e es' He Hes' IH]; [done |].
      cbn [fmap list_fmap concat]. apply Forall_app. split; [| done].
      by apply record_lines_no_LF.
    + apply Forall_singleton. unfold terminator_line.
      rewrite not_elem_of_app. split; [compute_done | apply str_of_int_no_LF].
Qed.

(** C9 fails without that: a subject with a leading space comes back
    without it, and a subject that holds a line feed comes back cut at the
    line feed, its second line read as a field of the record. *)
Lemma parse_serialize_loses_text :
  parse_email_list (serialize [padded]) ≠ to_dict <$> [padded]
  ∧ parse_email_list (serialize [two_lines]) ≠ to_dict <$> [two_lines]
  ∧ parse_email_list (serialize [padded])
    = [to_dict (Email (lit "x") false None None None)]
  ∧ parse_email_list (serialize [two_lines])
    = [to_dict (Email (lit "a") false (Some (lit "b")) None None)].
Proof.
  repeat split; try (vm_compute; reflexivity);
    intros H; vm_compute in H; discriminate H.
Qed.

End RoundTripLines.

(** ** The theorems at the inputs above *)

Lemma success_on_first_attempt_witness :
  execute env_ok (lit "s")
  = (Returned (lit "ok"), [EvAcquire; EvInvoke (lit "s"); EvRelease])
  ∧ trimmed_of (lit " ok ") (lit "ok")
  ∧ invocations (execute env_ok (lit "s")).2 = 1%nat.
Proof.
  apply (success_on_first_attempt (lit "s") env_ok (lit " ok ") []).
  reflexivity.
Defined.

Lemma only_timeouts_are_retried_witness :
  (execute env_fail (lit "s")).1
  = Raised (ExException (lit "AppleScript error (code 1): boom"))
  ∧ invocations (execute env_fail (lit "s")).2 = 2%nat.
Proof.
  assert (1 < 3)%nat as Hk by lia.
  assert (∀ j, (j < 1)%nat →
            ∃ str_e, env_fail j = Raises (ExTimeoutExpired str_e)) as Hbefore.
  { intros [| j] Hj; [by eexists | lia]. }
  assert (1 ≠ 0)%Z as Hcode by lia.
  exact (only_timeouts_are_retried (lit "s") env_fail 1 Hk Hbefore Hcode).
Defined.

Lemma timeouts_are_retried_with_backoff_witness :
  (execute env_timeout (lit "s")).1
  = Raised (ExException
      (lit "AppleScript execution timed out after 3 attempts. Apple Mail may be unresponsive."))
  ∧ (execute env_timeout (lit "s")).2
    = [EvAcquire; EvInvoke (lit "s"); EvSleep 2; EvInvoke (lit "s");
       EvSleep 4; EvInvoke (lit "s"); EvRelease].
Proof.
  pose proof (timeouts_are_retried_with_backoff (lit "s") env_timeout) as H.
  exact (proj2 (proj2 (proj2 H)) _ _ _ eq_refl eq_refl eq_refl).
Defined.



Lemma terminator_ends_scanning_witness :
  parse_email_list example_output
  = parse_lines ([ [ENVELOPE] ++ lit " Hello"; lit "   From: a@b.com";
                   lit "   Date: 2024-01-01" ] ++ [lit "TOTAL EMAILS: 1"])
  ∧ (Forall (λ l, ¬ begins l (lit "TOTAL EMAILS"))
       [ [ENVELOPE] ++ lit " Hello"; lit "   From: a@b.com";
         lit "   Date: 2024-01-01" ] →
     parse_email_list example_output
     = append_current
         (for_lines [ [ENVELOPE] ++ lit " Hello"; lit "   From: a@b.com";
                      lit "   Date: 2024-01-01" ] (Vars [] ∅)))
  ∧ parse_email_list example_output = [example_record].
Proof.
  apply (terminator_ends_scanning example_output _ (lit "TOTAL EMAILS: 1") [[]]).
  - vm_compute. reflexivity.
  - vm_compute. reflexivity.
Defined.

Lemma field_line_before_any_record_witness :
  field_value (lit "From:") (lit " From:  x ") (lit "x")
  ∧ emails (for_lines ([lit "note"] ++ [lit " From:  x "]) (Vars [] ∅)) = []
  ∧ current_email (for_lines ([lit "note"] ++ [lit " From:  x "]) (Vars [] ∅))
      !! "subject" = None
  ∧ current_email (for_lines ([lit "note"] ++ [lit " From:  x "]) (Vars [] ∅))
      !! "sender" = Some (VStr (lit "x"))
  ∧ ∃ r rest, parse_email_list field_first_output = r :: rest
      ∧ r !! "subject" = None ∧ is_Some (r !! "sender")
      ∧ (∀ mid post', [lit "Date: d"] = mid ++ post' →
           Forall (λ l, ¬ begins l (lit "From:")) mid → closes post' →
           r !! "sender" = Some (VStr (lit "x"))).
Proof.
  apply (field_line_before_any_record field_first_output [lit "note"]
           (lit " From:  x ") [lit "Date: d"] (lit "From:") "sender").
  - vm_compute. reflexivity.
  - apply Forall_cons_2; [| apply Forall_nil_2].
    split; [intros [H | H]; vm_compute in H; discriminate H
           | intros H; vm_compute in H; discriminate H].
  - apply list_elem_of_here.
  - vm_compute. reflexivity.
Defined.

Lemma unrecognized_lines_are_ignored_witness :
  parse_lines ([ [ENVELOPE] ++ lit " Hello" ] ++ lit "garbage" :: [])
  = parse_lines ([ [ENVELOPE] ++ lit " Hello" ] ++ []).
Proof.
  assert (unrecognized (lit "garbage")) as Hl.
  { split; [vm_compute; discriminate |].
    repeat (apply Forall_cons; split; [vm_compute; discriminate |]).
    apply Forall_nil_2. }
  exact (proj1 (proj2
    (unrecognized_lines_are_ignored [ [ENVELOPE] ++ lit " Hello" ]
       (lit "garbage") [] Hl))).
Defined.

Lemma parse_serialize_witness :
  parse_email_list (serialize [hello; hello]) = to_dict <$> [hello; hello].
Proof.
  apply parse_serialize.
  assert (clean_email hello) as Hc.
  { repeat split; compute_done. }
  repeat (apply Forall_cons_2; [exact Hc |]). apply Forall_nil_2.
Defined.

(** * More of the code *)

(** ** Stripping *)

Section Strip.

Lemma lstrip_head s c t : lstrip s = c :: t → isspace c = false.
Proof.
  induction s as [| x s IH]; simpl; [done |].
  destruct (isspace x) eqn:Hx; [done |]. by intros [= -> ->].
Qed.

Lemma lstrip_lstrip s : lstrip (lstrip s) = lstrip s.
Proof.
  destruct (lstrip s) as [| c t] eqn:Hs; [done |].
  simpl. by rewrite (lstrip_head _ _ _ Hs).
Qed.

Lemma rstrip_rstrip s : rstrip (rstrip s) = rstrip s.
Proof. unfold rstrip. by rewrite reverse_involutive, lstrip_lstrip. Qed.

Lemma lstrip_rstrip_id s : lstrip s = s → lstrip (rstrip s) = rstrip s.
Proof.
  destruct s as [| c s]; [done |]. intros Hs.
  apply lstrip_id_head in Hs.
  rewrite (rstrip_app_nonspace [] c s Hs : rstrip (c :: s) = c :: rstrip s).
  simpl. by rewrite Hs.
Qed.

Lemma strip_strip s : strip (strip s) = strip s.
Proof.
  unfold strip. rewrite lstrip_rstrip_id by apply lstrip_lstrip.
  apply rstrip_rstrip.
Qed.

Lemma elem_of_lstrip x s : x ∈ lstrip s → x ∈ s.
Proof.
  induction s as [| c s IH]; simpl; [done |].
  destruct (isspace c); [| done]. intros Hx. right. by apply IH.
Qed.

Lemma elem_of_strip x s : x ∈ strip s → x ∈ s.
Proof.
  unfold strip, rstrip. rewrite elem_of_reverse. intros Hx.
  apply elem_of_lstrip in Hx. rewrite elem_of_reverse in Hx.
  by apply elem_of_lstrip.
Qed.

Lemma length_strip s : (length (strip s) ≤ length s)%nat.
Proof.
  unfold strip. etrans; [apply length_rstrip | apply length_lstrip].
Qed.

End Strip.

(** ** The parser: more properties *)

Import ParserMore.

Section ParserMoreProperties.

Lemma classify_decorative raw : decorative raw → classify raw = Skipped.
Proof.
  unfold decorative, begins, classify.
  intros [H | [H | [H | [H | H]]]]; rewrite H; [done | ..];
    by rewrite ?orb_true_r.
Qed.

Lemma for_lines_app_decorative pre l post : ∀ v,
  decorative l → for_lines (pre ++ l :: post) v = for_lines (pre ++ post) v.
Proof.
  intros v Hl. revert v.
  induction pre as [| raw pre IH]; intros v; simpl app.
  - by rewrite for_lines_cons, (classify_decorative _ Hl).
  - rewrite !for_lines_cons. destruct (classify raw); auto.
Qed.

(** X1. Blank lines and lines that begin with a decoration glyph change
    nothing, wherever they stand: the input parses as it does without
    such a line. *)
Theorem decorative_lines_are_skipped pre l post :
  decorative l →
  parse_lines (pre ++ l :: post) = parse_lines (pre ++ post)
  ∧ (Forall (λ l', LF ∉ l') (pre ++ l :: post) →
     parse_email_list (join [LF] (pre ++ l :: post))
     = parse_email_list (join [LF] (pre ++ post))).
Proof.
  intros Hl. split.
  - unfold parse_lines. by rewrite for_lines_app_decorative.
  - intros Hlf. rewrite !parse_join; [| | done].
    + unfold parse_lines. by rewrite for_lines_app_decorative.
    + apply Forall_app in Hlf as [Hpre Hpost]. apply Forall_app.
      split; [done |]. by apply Forall_cons in Hpost as [_ Hpost].
Qed.

Lemma classify_field_inv raw key value :
  classify raw = FieldLine key value →
  field_start raw
  ∧ key ∈ ["sender"; "date"; "preview"] ∧ strip value = value.
Proof.
  unfold classify, field_start, field_prefixes, begins.
  repeat case_match; intros; simplify_eq;
    (split; [| split; [set_solver | apply strip_strip]]).
  - by apply Exists_cons_hd.
  - by apply Exists_cons_tl, Exists_cons_hd.
  - by apply Exists_cons_tl, Exists_cons_tl, Exists_cons_hd.
Qed.

Lemma classify_record_start_inv raw is_read subject :
  classify raw = RecordStart is_read subject → strip subject = subject.
Proof.
  unfold classify. repeat case_match; intros; simplify_eq. apply strip_strip.
Qed.

Lemma no_record_no_field lines : ∀ v,
  Forall (λ l, ¬ record_start l ∧ ¬ field_start l) lines →
  emails v = [] → current_email v = ∅ →
  finish (for_lines lines v) = [].
Proof.
  intros v Hlines. revert v.
  induction Hlines as [| raw lines [Hstart Hfield] _ IH]; intros v He Hc.
  - cbn [for_lines]. unfold finish. by rewrite He, Hc.
  - rewrite for_lines_cons. destruct (classify raw) eqn:Hk; auto.
    + by apply classify_record_start in Hk.
    + by apply classify_field_inv in Hk as [? _].
    + rewrite finish_appended. unfold append_current. by rewrite He, Hc.
Qed.

(** X2. An output in which no line opens a record and no line sets a
    field gives no record: the empty output, an output of banners and a
    count only, an error text. *)
Theorem no_record_lines_give_no_record output :
  Forall (λ l, ¬ record_start l ∧ ¬ field_start l) (split LF output) →
  parse_email_list output = [].
Proof. intros H. by apply no_record_no_field. Qed.

Lemma fields_ok_empty : fields_ok ∅.
Proof.
  split; [by intros key x; rewrite lookup_empty |].
  rewrite !lookup_empty. split; by intros [? ?].
Qed.

Lemma fields_ok_start is_read subject :
  strip subject = subject →
  fields_ok (<["subject" := VStr subject]> (<["is_read" := VBool is_read]> ∅)).
Proof.
  intros Hs. split.
  - intros key x. rewrite !lookup_insert. repeat case_decide; simplify_eq;
      rewrite ?lookup_empty; intros; simplify_eq; simpl; [| done].
    split; [set_solver | done].
  - rewrite lookup_insert_eq, lookup_insert_ne, lookup_insert_eq by done.
    split; eauto.
Qed.

Lemma fields_ok_field key value (r : dict) :
  key ∈ ["sender"; "date"; "preview"] → strip value = value →
  fields_ok r → fields_ok (<[key := VStr value]> r).
Proof.
  intros Hkey Hv [Hall Hiff]. split.
  - intros key' x. rewrite lookup_insert. case_decide; [| apply Hall].
    intros; simplify_eq. simpl. split; [| done].
    rewrite !elem_of_cons in *. tauto.
  - assert (key ≠ "subject" ∧ key ≠ "is_read") as [? ?].
    { rewrite !elem_of_cons, elem_of_nil in Hkey.
      by destruct Hkey as [-> | [-> | [-> | []]]]. }
    by rewrite !lookup_insert_ne.
Qed.

Lemma append_current_ok v :
  Forall record_ok (emails v) → fields_ok (current_email v) →
  Forall record_ok (append_current v).
Proof.
  intros He Hc. unfold append_current. destruct (truthy _) eqn:Ht; [| done].
  apply Forall_app. split; [done |]. apply Forall_singleton.
  split; [| done]. by apply bool_decide_eq_true in Ht.
Qed.

Lemma finish_ok v :
  Forall record_ok (emails v) → fields_ok (current_email v) →
  Forall record_ok (finish v).
Proof.
  intros He Hc. unfold finish. destruct (truthy _) eqn:Ht; simpl; [| done].
  destruct (negb _); [| done].
  apply Forall_app. split; [done |]. apply Forall_singleton.
  split; [| done]. by apply bool_decide_eq_true in Ht.
Qed.

Lemma for_lines_ok lines : ∀ v,
  Forall record_ok (emails v) → fields_ok (current_email v) →
  Forall record_ok (finish (for_lines lines v)).
Proof.
  induction lines as [| raw lines IH]; intros v He Hc; [by apply finish_ok |].
  rewrite for_lines_cons. destruct (classify raw) eqn:Hk; auto.
  - apply IH; simpl; [by apply append_current_ok |].
    apply fields_ok_start. by eapply classify_record_start_inv.
  - apply classify_field_inv in Hk as (_ & Hkey & Hv).
    apply IH; simpl; [done |]. by apply fields_ok_field.
  - rewrite finish_appended. by apply append_current_ok.
Qed.

(** X3. Every record the parser returns is a non-empty dictionary that
    holds nothing but the read flag under [is_read] and stripped texts
    under [subject], [sender], [date] and [preview], and that has a
    subject exactly when it has a read flag. *)
Theorem parsed_records_are_well_formed output :
  Forall record_ok (parse_email_list output).
Proof. apply for_lines_ok; simpl; [done | apply fields_ok_empty]. Qed.

Lemma for_lines_same_field pre f1 f2 post prefix key : ∀ v,
  (prefix, key) ∈ field_prefixes → begins f1 prefix → begins f2 prefix →
  for_lines (pre ++ f1 :: f2 :: post) v = for_lines (pre ++ f2 :: post) v.
Proof.
  intros v Hin H1 H2. revert v.
  induction pre as [| raw pre IH]; intros v; simpl app.
  - destruct (classify_field _ _ _ Hin H1) as [v1 Hc1].
    destruct (classify_field _ _ _ Hin H2) as [v2 Hc2].
    rewrite !for_lines_cons, Hc1, Hc2, for_lines_cons, Hc2. simpl.
    by rewrite insert_insert_eq.
  - rewrite !for_lines_cons. destruct (classify raw); auto.
Qed.

(** X4. Of two consecutive lines that set the same field, the second one
    wins: the input parses as it does without the first. *)
Theorem repeated_field_last_wins output pre f1 f2 post prefix key :
  split LF output = pre ++ f1 :: f2 :: post →
  (prefix, key) ∈ field_prefixes → begins f1 prefix → begins f2 prefix →
  parse_email_list output = parse_lines (pre ++ f2 :: post).
Proof.
  intros Hsplit Hin H1 H2. unfold parse_email_list, parse_lines.
  rewrite Hsplit. f_equal. by eapply for_lines_same_field.
Qed.

End ParserMoreProperties.

(** ** The engine: more properties *)

Import EngineMore.

Section EngineMoreProperties.

Variable script : str.
Variable env : nat → attempt_outcome.

Ltac unfold_engine :=
  unfold execute, run_applescript, locked_block; simpl.

Ltac case_engine :=
  match goal with
  | H : env ?n = _ |- context [env ?n] => rewrite H; simpl
  | |- context [match env ?n with _ => _ end] =>
      destruct (env n) as [? ? ? | [? | ? | ?]] eqn:?; simpl
  | |- context [bool_decide ?P] => case_bool_decide; simpl
  | |- context [if contains ?a ?b then _ else _] =>
      destruct (contains a b) eqn:?; simpl
  end.


(** X6. An attempt that exits with status 0 after [k] timed-out attempts
    ends the call with its stripped output, after the [k] sleeps and
    [k + 1] invocations. *)
Theorem success_after_timeouts (k : nat) stdout stderr :
  (k < 3)%nat →
  (∀ j, (j < k)%nat → ∃ str_e, env j = Raises (ExTimeoutExpired str_e)) →
  env k = Completed 0 stdout stderr →
  execute env script
  = (Returned (strip stdout),
     EvAcquire :: retries script k ++ [EvInvoke script; EvRelease]).
Proof.
  intros Hk Hbefore Hok.
  destruct k as [| [| [| k]]]; [| | | lia].
  - unfold_engine. repeat case_engine. done.
  - destruct (Hbefore 0%nat) as [m0 H0]; [lia |].
    unfold_engine. repeat case_engine. done.
  - destruct (Hbefore 0%nat) as [m0 H0]; [lia |].
    destruct (Hbefore 1%nat) as [m1 H1]; [lia |].
    unfold_engine. repeat case_engine. done.
Qed.



End EngineMoreProperties.

(** ** The event loop: progress and length of the runs *)

Section Progress.

(** X8. The lock never blocks everybody: in every state the calls can
    reach, as long as one of them has not ended, one of them can be
    resumed. *)
Theorem some_call_can_always_run scripts sched tr s i t :
  exec sched (spawn scripts) = Some (tr, s) →
  tasks s !! i = Some t → ¬ task_done t →
  ∃ j o e s', step j o s = Some (e, s').
Proof.
  intros He Hi Hnot.
  destruct (exec_agrees _ _ _ _ _ (spawn_agrees scripts) He) as (c & _ & Hag).
  pose proof (agrees_locked _ _ Hag) as Hl.
  pose proof (agrees_owner _ _ Hag) as Hw.
  destruct c as [| j | j].
  - destruct (agrees_others _ _ Hag i t Hi) as (p & -> & Hp); [done |].
    exists i, (Completed 0 [] []). unfold step. rewrite Hi.
    destruct p as [r | X a k]; [done |].
    destruct a; simpl in Hp; try done. rewrite Hl. eauto.
  - destruct Hw as (p & Hj & Hp). exists j, (Completed 0 [] []).
    unfold step. rewrite Hj. destruct p as [r | X a k]; [done |].
    destruct a; simpl in Hp; try done; eauto.
  - destruct Hw as (k & Hj & _). exists j, (Completed 0 [] []).
    unfold step. rewrite Hj. eauto.
Qed.

Lemma within_mono {R : Type} (p : aio R) : ∀ n m,
  (n ≤ m)%nat → within n p → within m p.
Proof.
  induction p as [r | X a k IH]; intros n m Hnm; simpl; [done |].
  intros [Hc Hk]. split; [lia |]. intros x.
  apply (IH x (n - cost a)%nat); [lia | done].
Qed.

Lemma within_bind {R S : Type} (p : aio R) (f : R → aio S) n m :
  within n p → (∀ r, within m (f r)) → within (n + m) (bind p f).
Proof.
  revert n. induction p as [r | X a k IH]; intros n Hp Hf; simpl.
  - apply (within_mono _ m); [lia | done].
  - destruct Hp as [Hc Hk]. split; [lia |]. intros x.
    replace (n + m - cost a)%nat with ((n - cost a) + m)%nat by lia.
    by apply IH.
Qed.

Lemma within_iteration script attempt last_exception :
  within (if bool_decide (attempt < MAX_RETRIES - 1)%Z then 3 else 2)
         (iteration script attempt last_exception).
Proof.
  unfold iteration, try_body. simpl. split; [case_bool_decide; lia |].
  intros [returncode stdout stderr | [str_e | str_e | str_e]]; simpl;
    repeat case_bool_decide; simpl; try done; try lia.
  - by destruct (contains _ _).
  - by destruct (contains _ _).
Qed.

Lemma within_locked_block script : within 8 (locked_block script).
Proof.
  unfold locked_block.
  apply (within_bind (for_attempts script (range MAX_RETRIES) None) _ 8 0);
    [| by intros [res | last_exception]].
  change (range MAX_RETRIES) with [0; 1; 2]%Z.
  cbn [for_attempts].
  apply (within_bind (iteration script 0 None) _ 3 5);
    [apply (within_iteration script 0) |].
  intros [v | e | last1]; [done.. |].
  apply (within_bind (iteration script 1 last1) _ 3 2);
    [apply (within_iteration script 1) |].
  intros [v | e | last2]; [done.. |].
  apply (within_bind (iteration script 2 last2) _ 2 0);
    [apply (within_iteration script 2) |].
  by intros [v | e | last3].
Qed.

Lemma within_run_applescript script : within 10 (run_applescript script).
Proof.
  unfold run_applescript. simpl. split; [lia |]. intros _.
  apply (within_bind (locked_block script) _ 8 1);
    [apply within_locked_block |].
  intros res. simpl. split; [lia | done].
Qed.

Lemma sum_list_insert (bs : list nat) i b b' :
  bs !! i = Some b → (sum_list (<[i := b']> bs) + b = sum_list bs + b')%nat.
Proof.
  revert i. induction bs as [| x bs IH]; intros [| i] Hi; simplify_eq/=;
    [lia |]. specialize (IH _ Hi). lia.
Qed.

Lemma step_within bs s i o e s' :
  Forall2 task_within bs (tasks s) → step i o s = Some (e, s') →
  ∃ bs', Forall2 task_within bs' (tasks s')
         ∧ (S (sum_list bs') ≤ sum_list bs)%nat.
Proof.
  intros Hbs Hs. unfold step in Hs.
  destruct (tasks s !! i) as [t |] eqn:Hi; [| done].
  destruct (Forall2_lookup_r _ _ _ _ _ Hbs Hi) as (b & Hb & Ht).
  assert (∀ t', task_within (b - 1) t' → (1 ≤ b)%nat →
            ∃ bs', Forall2 task_within bs' (<[i := t']> (tasks s))
                   ∧ (S (sum_list bs') ≤ sum_list bs)%nat) as Hnext.
  { intros t' Ht' Hb1. exists (<[i := (b - 1)%nat]> bs). split.
    - by apply Forall2_insert.
    - pose proof (sum_list_insert bs i b (b - 1) Hb). lia. }
  destruct t as [[r | X a k] | k]; [done | |].
  - destruct a; simpl in Ht; destruct Ht as [Hc Hk].
    + destruct (_applescript_lock s); [done |]. simplify_eq. simpl.
      apply Hnext; [apply Hk | done].
    + simplify_eq. simpl. apply Hnext; [apply Hk | done].
    + simplify_eq. simpl. apply Hnext; [| lia]. simpl. split; [lia |].
      intros x. replace (b - 1 - 1)%nat with (b - 2)%nat by lia. apply Hk.
    + simplify_eq. simpl. apply Hnext; [apply Hk | done].
  - simplify_eq. simpl. destruct Ht as [Hb1 Hk].
    apply Hnext; [apply Hk | done].
Qed.

Lemma exec_within sched : ∀ bs s tr s',
  Forall2 task_within bs (tasks s) → exec sched s = Some (tr, s') →
  (length tr = length sched ∧ length tr ≤ sum_list bs)%nat.
Proof.
  induction sched as [| [i o] rest IH]; intros bs s tr s' Hbs He;
    simpl in He.
  - simplify_eq. simpl. lia.
  - destruct (step i o s) as [[e s1] |] eqn:Hs; [| done].
    destruct (exec rest s1) as [[tr1 s2] |] eqn:Hr; [| done]. simplify_eq.
    destruct (step_within _ _ _ _ _ _ Hbs Hs) as (bs1 & Hbs1 & Hsum).
    destruct (IH _ _ _ _ Hbs1 Hr) as [Hlen Hle]. simpl. lia.
Qed.

(** X9. Every run of concurrent calls is finite: however the event loop
    schedules them and whatever the interpreter answers, each call takes
    at most 10 steps (the lock twice, three invocations with a start and
    an end each, two sleeps), so no schedule of more than 10 steps per
    call can be followed. *)
Theorem runs_are_bounded scripts sched tr s' :
  exec sched (spawn scripts) = Some (tr, s') →
  length tr = length sched ∧ (length sched ≤ 10 * length scripts)%nat.
Proof.
  intros He.
  assert (Forall2 task_within (replicate (length scripts) 10%nat)
            (tasks (spawn scripts))) as Hbs.
  { unfold spawn. simpl. clear He.
    induction scripts as [| script rest IH]; simpl; constructor;
      [apply within_run_applescript | apply IH]. }
  destruct (exec_within _ _ _ _ _ Hbs He) as [Hlen Hle].
  split; [done |]. rewrite <- Hlen.
  etrans; [exact Hle |]. clear.
  induction (length scripts) as [| n IH]; simpl; lia.
Qed.

End Progress.

(** ** Splitting, joining and replacing *)

Import PyMore Tools.

Section PyMoreLemmas.

Lemma join_cons_cons sep l l' ls :
  join sep (l :: l' :: ls) = l ++ sep ++ join sep (l' :: ls).
Proof. done. Qed.

Lemma join_split sep s : join [sep] (split sep s) = s.
Proof.
  induction s as [| c s IH]; [done |]. cbn [split].
  destruct (N.eqb_spec c sep) as [-> | Hne].
  - destruct (split sep s) as [| l ls] eqn:Hs; [by apply split_nonempty in Hs |].
    rewrite join_cons_cons, IH. done.
  - destruct (split sep s) as [| l ls] eqn:Hs; [by apply split_nonempty in Hs |].
    destruct ls as [| l' ls]; simpl in *; by rewrite IH.
Qed.

Lemma split_join_sep sep ls :
  Forall (λ l, sep ∉ l) ls → ls ≠ [] → split sep (join [sep] ls) = ls.
Proof.
  induction 1 as [| l ls Hl Hls IH]; intros Hne; [done |].
  destruct ls as [| l' ls]; simpl.
  - by apply split_no_sep.
  - rewrite split_app_sep by done. f_equal. by apply IH.
Qed.

Lemma startswith_elem s p x : startswith s p = true → x ∈ p → x ∈ s.
Proof.
  revert s. induction p as [| a p IH]; intros s Hs Hx; [by inversion Hx |].
  destruct s as [| c s]; [done |]. simpl in Hs.
  apply andb_prop in Hs as [Hc Hs]. apply N.eqb_eq in Hc. subst c.
  apply elem_of_cons in Hx as [-> | Hx]; [left | right; by apply IH].
Qed.

Lemma contains_elem s p x : contains s p = true → x ∈ p → x ∈ s.
Proof.
  induction s as [| c s IH]; intros Hs Hx; simpl in Hs.
  - rewrite orb_false_r in Hs. by eapply startswith_elem.
  - apply orb_prop in Hs as [Hs | Hs]; [by eapply startswith_elem |].
    right. by apply IH.
Qed.

Lemma replace_absent old new s :
  contains s old = false → str_replace old new s = s.
Proof.
  unfold str_replace. induction s as [| c s IH]; [done |].
  intros Hs. cbn [contains] in Hs. apply orb_false_elim in Hs as [Hhere Hs].
  cbn [replace_from]. rewrite Hhere. f_equal. by apply IH.
Qed.

Lemma length_replace_from_nil old s : ∀ skip,
  (length (replace_from old [] skip s) ≤ length s)%nat.
Proof.
  induction s as [| c s IH]; intros skip; [done |]. cbn [replace_from].
  destruct skip as [| k].
  - destruct (startswith _ _); simpl.
    + specialize (IH (length old - 1)%nat). lia.
    + specialize (IH 0%nat). lia.
  - specialize (IH k). simpl. lia.
Qed.

Lemma escape_quotes_cons c text :
  escape_quotes (c :: text)
  = (if c =? QUOTE then [BACKSLASH; QUOTE] else [c]) ++ escape_quotes text.
Proof.
  unfold escape_quotes, str_replace. cbn [replace_from startswith].
  rewrite startswith_nil, andb_true_r. by destruct (c =? QUOTE).
Qed.

End PyMoreLemmas.

(** ** Escaping the double quotes *)

Section Escaping.

Lemma escape_quotes_app a b :
  escape_quotes (a ++ b) = escape_quotes a ++ escape_quotes b.
Proof.
  induction a as [| c a IH]; [done |].
  rewrite <- app_comm_cons, !escape_quotes_cons, IH. by rewrite app_assoc.
Qed.

Lemma escape_quotes_head text : head (escape_quotes text) ≠ Some QUOTE.
Proof.
  destruct text as [| c text]; [done |]. rewrite escape_quotes_cons.
  destruct (N.eqb_spec c QUOTE); simpl; [done |]. congruence.
Qed.

(** X10. In an escaped text every double quote stands right after a
    backslash, and a text without double quotes is left as it is. *)
Theorem escaped_quotes_follow_a_backslash text :
  (∀ i, escape_quotes text !! i = Some QUOTE →
        ∃ j, i = S j ∧ escape_quotes text !! j = Some BACKSLASH)
  ∧ (QUOTE ∉ text → escape_quotes text = text).
Proof.
  split.
  - induction text as [| c text IH]; intros i Hi; [done |].
    rewrite escape_quotes_cons in *.
    destruct (N.eqb_spec c QUOTE) as [-> | Hne]; simpl in *.
    + destruct i as [| [| i]]; simplify_eq/=; [by exists 0%nat |].
      destruct (IH _ Hi) as (j & -> & Hj). by exists (S (S j)).
    + destruct i as [| i]; simplify_eq/=.
      destruct (IH _ Hi) as (j & -> & Hj). by exists (S j).
  - induction text as [| c text IH]; intros Hq; [done |].
    apply not_elem_of_cons in Hq as [Hc Hq]. rewrite escape_quotes_cons.
    destruct (N.eqb_spec c QUOTE); [done |]. simpl. by rewrite IH.
Qed.

(** X11. Escaping loses nothing: two texts with the same escaped text are
    the same text. *)
Theorem escape_quotes_is_injective a b :
  escape_quotes a = escape_quotes b → a = b.
Proof.
  revert b. induction a as [| x a IH]; intros [| y b] Hab.
  - done.
  - rewrite escape_quotes_cons in Hab. by destruct (y =? QUOTE).
  - rewrite escape_quotes_cons in Hab. by destruct (x =? QUOTE).
  - rewrite !escape_quotes_cons in Hab.
    destruct (N.eqb_spec x QUOTE) as [-> | Hx],
             (N.eqb_spec y QUOTE) as [-> | Hy]; simpl in Hab.
    + injection Hab as Hab. f_equal. by apply IH.
    + injection Hab as _ Hab.
      pose proof (escape_quotes_head b) as Hb. by rewrite <- Hab in Hb.
    + injection Hab as _ Hab.
      pose proof (escape_quotes_head a) as Ha. by rewrite Hab in Ha.
    + injection Hab as -> Hab. f_equal. by apply IH.
Qed.

(** X12. Escaping goes through a text piece by piece and touches nothing
    but the double quotes: a backslash of the text stays a single
    backslash, so a text that ends with one has an escaped text that ends
    with one. *)
Theorem escape_quotes_keeps_backslashes a b c :
  escape_quotes (a ++ b) = escape_quotes a ++ escape_quotes b
  ∧ (c ≠ QUOTE → escape_quotes (a ++ [c]) = escape_quotes a ++ [c]).
Proof.
  split; [apply escape_quotes_app |]. intros Hc.
  rewrite escape_quotes_app, escape_quotes_cons.
  by destruct (N.eqb_spec c QUOTE).
Qed.

End Escaping.

(** ** The keyword of a thread *)

Section ThreadKeyword.

Lemma clean_step_colon_free cleaned prefix :
  COLON ∈ prefix → COLON ∉ cleaned →
  strip (str_replace prefix [] cleaned) = strip cleaned.
Proof.
  intros Hp Hc. rewrite replace_absent; [done |].
  apply not_true_is_false. intros Hin. apply Hc. by eapply contains_elem.
Qed.

Lemma cleaned_keyword_steps (prefixes : list str) : ∀ keyword,
  let cleaned :=
    foldl (λ cleaned prefix, strip (str_replace prefix [] cleaned))
          keyword prefixes in
  (prefixes ≠ [] → strip cleaned = cleaned)
  ∧ (length cleaned ≤ length keyword)%nat
  ∧ (Forall (λ prefix, COLON ∈ prefix) prefixes → prefixes ≠ [] →
     COLON ∉ keyword → cleaned = strip keyword).
Proof.
  induction prefixes as [| prefix rest IH]; intros keyword; [done |].
  cbn [foldl]. cbv zeta.
  destruct (IH (strip (str_replace prefix [] keyword)))
    as (Hstripped & Hlen & Hfree).
  assert (length (strip (str_replace prefix [] keyword)) ≤ length keyword)%nat
    as Hstep.
  { etrans; [apply length_strip |]. apply length_replace_from_nil. }
  split; [| split].
  - intros _. destruct rest as [| prefix' rest]; [apply strip_strip |].
    by apply Hstripped.
  - cbv zeta in Hlen. lia.
  - intros Hall _ Hkey. apply Forall_cons in Hall as [Hp Hall].
    destruct rest as [| prefix' rest].
    + by apply clean_step_colon_free.
    + cbv zeta in Hfree. rewrite Hfree; [| done | done |].
      * rewrite clean_step_colon_free by done. apply strip_strip.
      * rewrite clean_step_colon_free by done.
        intros Hin. by apply elem_of_strip in Hin.
Qed.

(** X13. The cleaned keyword of [get_email_thread] is stripped and no
    longer than the keyword; a keyword without a colon holds none of the
    prefixes and is only stripped. *)
Theorem cleaned_keyword_of_a_thread subject_keyword :
  strip (cleaned_keyword subject_keyword) = cleaned_keyword subject_keyword
  ∧ (length (cleaned_keyword subject_keyword) ≤ length subject_keyword)%nat
  ∧ (COLON ∉ subject_keyword →
     cleaned_keyword subject_keyword = strip subject_keyword).
Proof.
  destruct (cleaned_keyword_steps thread_keywords subject_keyword)
    as (Hstripped & Hlen & Hfree).
  split; [by apply Hstripped |]. split; [done |].
  intros Hc. apply Hfree; [| done | done].
  unfold thread_keywords. repeat (apply Forall_cons; split; [compute_done |]).
  apply Forall_nil_2.
Qed.

End ThreadKeyword.

(** ** The destination of a move *)

Section Destination.

Lemma getitem_nat {A : Type} (l : list A) (i : nat) :
  getitem l (Z.of_nat i) = l !! i.
Proof.
  unfold getitem. rewrite bool_decide_eq_true_2 by lia. by rewrite Nat2Z.id.
Qed.

Lemma getitem_last {A : Type} (l : list A) :
  l ≠ [] → getitem l (-1) = l !! (length l - 1)%nat.
Proof.
  intros Hl. unfold getitem. rewrite bool_decide_eq_false_2 by lia.
  assert (0 < length l)%nat by (destruct l; [done | simpl; lia]).
  rewrite bool_decide_eq_true_2 by lia. f_equal. lia.
Qed.

Lemma range_down_S (m : nat) :
  range_down (Z.of_nat m) (-1)
  = Z.of_nat m :: range_down (Z.of_nat m - 1) (-1).
Proof.
  unfold range_down.
  replace (Z.to_nat (Z.of_nat m - -1)) with (S m) by lia.
  replace (Z.to_nat (Z.of_nat m - 1 - -1)) with m by lia.
  cbn [seq fmap list_fmap]. f_equal; [lia |].
  rewrite <- fmap_S_seq, <- list_fmap_compose.
  apply list_fmap_ext. intros _ k _. simpl. lia.
Qed.

Lemma range_down_0 : range_down (Z.of_nat 0 - 1) (-1) = [].
Proof. done. Qed.

Lemma descend_parts (parts : list str) (m : nat) : ∀ acc,
  (m ≤ length parts)%nat →
  for_each (λ dest i, part ← getitem parts i; Some (dest ++ mailbox_of part))
           acc (range_down (Z.of_nat m - 1) (-1))
  = Some (acc ++ concat (mailbox_of <$> reverse (take m parts))).
Proof.
  induction m as [| m IH]; intros acc Hm.
  - rewrite range_down_0, take_0. cbn [for_each reverse fmap list_fmap concat].
    by rewrite app_nil_r.
  - replace (Z.of_nat (S m) - 1)%Z with (Z.of_nat m) by lia.
    rewrite range_down_S. cbn [for_each]. rewrite getitem_nat.
    destruct (lookup_lt_is_Some_2 parts m) as [part Hpart]; [lia |].
    rewrite Hpart. cbn [mbind option_bind]. rewrite IH by lia.
    rewrite (take_S_r _ _ _ Hpart), reverse_app, reverse_singleton.
    cbn [app fmap list_fmap concat]. by rewrite app_assoc.
Qed.

(** X14. The destination reference of [move_email] names the parts of the
    path from the innermost mailbox out to the account, each in double
    quotes as it stands; no subscript of the loop is ever out of range,
    and a path without a slash is a path of one part. *)
Theorem destination_is_the_path_reversed to_mailbox :
  dest_mailbox_script to_mailbox
  = Some (concat (mailbox_of <$> reverse (split SLASH to_mailbox))
            ++ lit "targetAccount").
Proof.
  unfold dest_mailbox_script.
  pose proof (join_split SLASH to_mailbox) as Hjoin.
  destruct (split SLASH to_mailbox) as [| part parts] eqn:Hsplit;
    [by apply split_nonempty in Hsplit |].
  case_bool_decide as Hlen.
  - rewrite getitem_last by done.
    set (all := part :: parts) in *.
    destruct (lookup_lt_is_Some_2 all (length all - 1)) as [last_part Hlast];
      [simpl; lia |].
    rewrite Hlast. cbn [mbind option_bind].
    assert (0 < length all)%nat as Hpos by (unfold all; simpl; lia).
    replace (Z.of_nat (length all) - 2)%Z
      with (Z.of_nat (length all - 1) - 1)%Z by lia.
    rewrite descend_parts by lia. cbn [mbind option_bind]. do 2 f_equal.
    rewrite <- (take_drop (length all - 1) all) at 3.
    rewrite reverse_app.
    assert (drop (length all - 1) all = [last_part]) as ->.
    { apply list_eq. intros [| i].
      - rewrite lookup_drop. by rewrite Nat.add_0_r.
      - rewrite lookup_drop. cbn [lookup list_lookup].
        apply lookup_ge_None_2. lia. }
    rewrite reverse_singleton. by cbn [app fmap list_fmap concat].
  - destruct parts as [| part' parts]; [| simpl in Hlen; lia].
    cbn [join] in Hjoin. subst part.
    cbn [reverse rev_append fmap list_fmap concat]. rewrite app_nil_r.
    unfold mailbox_of. rewrite <- !app_assoc. done.
Qed.

End Destination.

(** ** The list of accounts *)

Section Accounts.

Lemma run_bind_ret {R S : Type} env (p : aio R) (f : R → aio S) (g : R → S) :
  (∀ r, f r = Ret (g r)) →
  ∀ n, run env n (bind p f) = (g (run env n p).1, (run env n p).2).
Proof.
  intros Hf. induction p as [r | X a k IH]; intros n; simpl.
  - by rewrite Hf.
  - rewrite IH. by destruct (run env _ (k _)).
Qed.

Lemma first_attempt_returns env script stdout stderr :
  env 0%nat = Completed 0 stdout stderr →
  (run env 0 (run_applescript script)).1 = Returned (strip stdout).
Proof.
  intros H0. unfold run_applescript, locked_block. simpl. by rewrite H0.
Qed.

Lemma list_accounts_first_attempt env stdout stderr :
  env 0%nat = Completed 0 stdout stderr →
  (run env 0 list_accounts).1 = Ok (list_accounts_result (strip stdout)).
Proof.
  intros H0.
  assert (run env 0 list_accounts
          = (match (run env 0 (run_applescript list_accounts_script)).1 with
             | Returned result => Ok (list_accounts_result result)
             | Raised e => Err e
             end,
             (run env 0 (run_applescript list_accounts_script)).2)) as ->.
  { apply (run_bind_ret env (run_applescript list_accounts_script) _
             (λ r, match r with
                   | Returned result => Ok (list_accounts_result result)
                   | Raised e => Err e
                   end)).
    by intros [result | e]. }
  by rewrite (first_attempt_returns _ _ _ _ H0).
Qed.

(** X15. When the first attempt of its call exits with status 0,
    [list_accounts] returns a list that joins back, with the separator, to
    the output without its outer whitespace; and names without the
    separator, written with the separator between them and possibly with
    whitespace around the whole, come back as they were, provided the text
    written is not empty and neither begins nor ends with whitespace. *)
Theorem accounts_split_and_join env stdout stderr :
  env 0%nat = Completed 0 stdout stderr →
  (∃ accounts, (run env 0 list_accounts).1 = Ok accounts
               ∧ trimmed_of stdout (join [PIPE] accounts))
  ∧ (∀ names, Forall (λ name, PIPE ∉ name) names →
       join [PIPE] names ≠ [] →
       trimmed_of stdout (join [PIPE] names) →
       (run env 0 list_accounts).1 = Ok names).
Proof.
  intros H0. rewrite (list_accounts_first_attempt _ _ _ H0). split.
  - eexists. split; [done |].
    assert (join [PIPE] (list_accounts_result (strip stdout)) = strip stdout)
      as ->; [| apply strip_trimmed].
    unfold list_accounts_result.
    case_bool_decide as Hr; [apply join_split |].
    by destruct (strip stdout).
  - intros names Hnames Hne Htrim. f_equal.
    rewrite (trimmed_of_strip _ _ Htrim). unfold list_accounts_result.
    rewrite bool_decide_eq_true_2 by done.
    apply split_join_sep; [done |]. by intros ->.
Qed.

(** X16. [list_accounts] does what one call of [run_applescript] on its
    script does and nothing else: the exception of the call is the
    exception of the tool, and the output of the call, split at the
    separator, is its value. An output of white space alone is an empty
    list of accounts. *)
Theorem list_accounts_runs_one_call env :
  run env 0 list_accounts
  = (match (execute env list_accounts_script).1 with
     | Returned result => Ok (list_accounts_result result)
     | Raised e => Err e
     end,
     (execute env list_accounts_script).2)
  ∧ (∀ stdout stderr,
       env 0%nat = Completed 0 stdout stderr → strip stdout = [] →
       (run env 0 list_accounts).1 = Ok []).
Proof.
  assert (run env 0 list_accounts
          = (match (execute env list_accounts_script).1 with
             | Returned result => Ok (list_accounts_result result)
             | Raised e => Err e
             end,
             (execute env list_accounts_script).2)) as Hrun.
  { unfold list_accounts, execute.
    apply (run_bind_ret env (run_applescript list_accounts_script) _
             (λ r, match r with
                   | Returned result => Ok (list_accounts_result result)
                   | Raised e => Err e
                   end)).
    by intros [result | e]. }
  split; [done |]. intros stdout stderr H0 Hblank. rewrite Hrun. clear Hrun.
  generalize list_accounts_script. intros script.
  unfold execute, run_applescript, locked_block. simpl.
  rewrite H0. simpl. by rewrite Hblank.
Qed.

End Accounts.

(** ** The unread counts *)

Import ToolsSpec.

Section UnreadCounts.

Variable int : str → option Z.

Lemma str_of_uint_chars d :
  Forall numeral_char (lit (NilEmpty.string_of_uint d)).
Proof.
  induction d; cbn [NilEmpty.string_of_uint]; [constructor | ..];
    rewrite lit_String; (constructor; [| assumption]);
    right; vm_compute; split; discriminate.
Qed.

Lemma str_of_int_chars n : Forall numeral_char (str_of_int n).
Proof.
  unfold str_of_int. destruct (Z.to_int n) as [d | d];
    unfold NilZero.string_of_int, NilZero.string_of_uint.
  - destruct d; try apply str_of_uint_chars.
    constructor; [| constructor]. right. vm_compute. split; discriminate.
  - rewrite lit_String. constructor; [by left |].
    destruct d; try apply str_of_uint_chars.
    constructor; [| constructor]. right. vm_compute. split; discriminate.
Qed.

Lemma numeral_not_elem c n : ¬ numeral_char c → c ∉ str_of_int n.
Proof.
  intros Hc Hin. pose proof (str_of_int_chars n) as Hall.
  rewrite Forall_forall in Hall. by apply Hc, Hall.
Qed.

Lemma str_of_int_not_ERROR n : str_of_int n ≠ lit "ERROR".
Proof.
  intros Heq. pose proof (str_of_int_chars n) as Hall. rewrite Heq in Hall.
  apply Forall_cons in Hall as [[H | [_ H]] _]; vm_compute in H;
    [discriminate H | by apply H].
Qed.

Lemma split_once_first sep a b :
  sep ∉ a → split_once sep (a ++ sep :: b) = [a; b].
Proof.
  induction a as [| c a IH]; intros Ha; simpl.
  - by rewrite N.eqb_refl.
  - apply not_elem_of_cons in Ha as [Hc Ha].
    destruct (N.eqb_spec c sep); [congruence |]. by rewrite IH.
Qed.

Lemma count_item_unread counts account :
  COLON ∉ account.1 →
  (∀ n, account.2 = Some n → int (str_of_int n) = Some n) →
  count_item int counts (unread_item account)
  = Some (<[(count_entry account).1 := (count_entry account).2]> counts).
Proof.
  destruct account as [name count]. simpl. intros Hname Hint.
  unfold count_item, unread_item. simpl.
  rewrite bool_decide_eq_true_2 by (apply elem_of_app; right; left).
  rewrite split_once_first by done.
  destruct count as [n |]; simpl.
  - rewrite bool_decide_eq_true_2 by apply str_of_int_not_ERROR.
    by rewrite Hint.
  - done.
Qed.

Lemma for_each_unread accounts : ∀ counts,
  Forall (λ account : str * option Z, COLON ∉ account.1) accounts →
  Forall (λ account : str * option Z,
            ∀ n, account.2 = Some n → int (str_of_int n) = Some n) accounts →
  for_each (count_item int) counts (unread_item <$> accounts)
  = Some (foldr (λ entry, <[entry.1 := entry.2]>) counts
            (reverse (count_entry <$> accounts))).
Proof.
  induction accounts as [| account accounts IH]; intros counts Hnames Hints;
    [done |].
  apply Forall_cons in Hnames as [Hname Hnames].
  apply Forall_cons in Hints as [Hint Hints].
  cbn [fmap list_fmap for_each]. rewrite count_item_unread by done.
  rewrite IH by done. by rewrite reverse_cons, foldr_app.
Qed.

Lemma unread_counts_of_output accounts :
  Forall (λ account : str * option Z,
            (PIPE ∉ account.1) ∧ (COLON ∉ account.1)) accounts →
  Forall (λ account : str * option Z,
            ∀ n, account.2 = Some n → int (str_of_int n) = Some n) accounts →
  unread_counts int (unread_output accounts)
  = Some (list_to_map (reverse (count_entry <$> accounts))).
Proof.
  intros Hnames Hints. unfold unread_counts, unread_output.
  destruct accounts as [| account accounts]; [done |].
  rewrite split_join_sep.
  - rewrite for_each_unread; [done | | done].
    eapply Forall_impl; [exact Hnames |]. by intros ? [_ ?].
  - apply Forall_fmap. eapply Forall_impl; [exact Hnames |].
    intros [name count] [Hpipe _]. simpl in *. unfold unread_item. simpl.
    rewrite not_elem_of_app, not_elem_of_cons. split; [done |].
    split; [done |]. destruct count as [n |]; simpl; [| compute_done].
    apply numeral_not_elem.
    intros [H | [_ H]]; vm_compute in H; [discriminate H | by apply H].
  - done.
Qed.

Lemma get_unread_count_first_attempt env stdout stderr :
  env 0%nat = Completed 0 stdout stderr →
  (run env 0 (get_unread_count int)).1 = Ok (unread_counts int (strip stdout)).
Proof.
  intros H0.
  assert (run env 0 (get_unread_count int)
          = (match (run env 0 (run_applescript get_unread_count_script)).1 with
             | Returned result => Ok (unread_counts int result)
             | Raised e => Err e
             end,
             (run env 0 (run_applescript get_unread_count_script)).2)) as ->.
  { apply (run_bind_ret env (run_applescript get_unread_count_script) _
             (λ r, match r with
                   | Returned result => Ok (unread_counts int result)
                   | Raised e => Err e
                   end)).
    by intros [result | e]. }
  by rewrite (first_attempt_returns _ _ _ _ H0).
Qed.

(** X17. The counts the script wrote come back. When the first attempt
    of [get_unread_count] exits with status 0 and its output is, between
    whitespace, what the script writes for a list of accounts (that text
    neither beginning nor ending with whitespace), with names without
    [|] and [:] and counts that [int] reads back from their decimal
    text, the tool returns the dictionary that maps each name to its
    count, or to -1 where the script wrote [ERROR]; of two accounts with
    one name the later one stays. *)
Theorem unread_counts_come_back env stdout stderr accounts :
  env 0%nat = Completed 0 stdout stderr →
  trimmed_of stdout (unread_output accounts) →
  Forall (λ account : str * option Z,
            (PIPE ∉ account.1) ∧ (COLON ∉ account.1)) accounts →
  Forall (λ account : str * option Z,
            ∀ n, account.2 = Some n → int (str_of_int n) = Some n) accounts →
  (run env 0 (get_unread_count int)).1
  = Ok (Some (list_to_map (reverse (count_entry <$> accounts)))).
Proof.
  intros H0 Htrim Hnames Hints.
  rewrite (get_unread_count_first_attempt _ _ _ H0).
  rewrite (trimmed_of_strip _ _ Htrim). f_equal.
  by apply unread_counts_of_output.
Qed.



Lemma elem_of_split sep s l x : l ∈ split sep s → x ∈ l → x ∈ s.
Proof.
  revert l. induction s as [| c s IH]; intros l Hl Hx; simpl in Hl.
  - apply list_elem_of_singleton in Hl. by subst.
  - destruct (c =? sep).
    + apply elem_of_cons in Hl as [-> | Hl]; [by inversion Hx |].
      right. by eapply IH.
    + destruct (split sep s) as [| l0 ls] eqn:Hs;
        [by apply split_nonempty in Hs |].
      apply elem_of_cons in Hl as [-> | Hl].
      * apply elem_of_cons in Hx as [-> | Hx]; [left | right].
        apply (IH l0); [left | done].
      * right. apply (IH l); [by right | done].
Qed.

(** X19. An output without a colon, the empty output among them, gives
    the empty dictionary: items that hold no colon are passed over. *)
Theorem no_colon_no_count result :
  COLON ∉ result → unread_counts int result = Some ∅.
Proof.
  intros Hc. unfold unread_counts.
  assert (Forall (λ item, COLON ∉ item) (split PIPE result)) as Hitems.
  { apply Forall_forall. intros item Hitem Hin. apply Hc.
    by eapply elem_of_split. }
  generalize (∅ : gmap str Z).
  induction Hitems as [| item items Hitem _ IH]; intros counts; [done |].
  cbn [for_each]. unfold count_item at 1.
  rewrite bool_decide_eq_false_2 by done. apply IH.
Qed.

End UnreadCounts.

(** ** The condition of a search *)

Section Conditions.

Lemma contains_condition_head variable text condition :
  variable = "messageSubject" ∨ variable = "messageSender" →
  condition ∈ contains_condition variable text → condition_head condition.
Proof.
  intros Hv. destruct text as [[| c text] |]; simpl;
    try (by intros H; inversion H).
  intros Hin. apply list_elem_of_singleton in Hin. subst condition.
  destruct Hv as [-> | ->]; eexists; left; reflexivity.
Qed.

Lemma contains_condition_nil variable text :
  contains_condition variable text = [] ↔ given text = false.
Proof. by destruct text as [[| c text] |]. Qed.

Lemma search_conditions_heads subject_keyword sender has_attachments read_status :
  Forall condition_head
    (search_conditions subject_keyword sender has_attachments read_status).
Proof.
  unfold search_conditions.
  assert (Forall condition_head
            ([] ++ contains_condition "messageSubject" subject_keyword
                ++ contains_condition "messageSender" sender)) as Hbase.
  { rewrite app_nil_l. apply Forall_app. split; apply Forall_forall;
      intros condition Hin.
    - apply (contains_condition_head "messageSubject" subject_keyword);
        [by left | done].
    - apply (contains_condition_head "messageSender" sender);
        [by right | done]. }
  rewrite app_assoc in Hbase.
  assert (∀ text, text = lit "(count of mail attachments of aMessage) > 0"
                  ∨ text = lit "(count of mail attachments of aMessage) = 0"
                  ∨ text = lit "messageRead is true"
                  ∨ text = lit "messageRead is false" →
                  condition_head text) as Hlit.
  { intros text [-> | [-> | [-> | ->]]]; eexists;
      first [left; reflexivity | right; reflexivity]. }
  destruct has_attachments as [[|] |]; repeat case_bool_decide;
    repeat (apply Forall_app; split;
            [| by apply Forall_singleton, Hlit; tauto]);
    exact Hbase.
Qed.

Lemma join_head sep c rest conditions :
  ∃ tail, join sep ((c :: rest) :: conditions) = c :: tail.
Proof. destruct conditions; by eexists. Qed.

(** X20. The condition of [search_emails] is never empty, and it is
    [true], which every message meets, exactly when no filter is in
    force: an absent or empty keyword and sender, no attachment filter,
    and a read status that is neither [read] nor [unread], whatever else
    it is. *)
Theorem search_condition_is_never_empty
    subject_keyword sender has_attachments read_status :
  let conditions :=
    search_conditions subject_keyword sender has_attachments read_status in
  condition_str conditions ≠ []
  ∧ (condition_str conditions = lit "true"
     ↔ given subject_keyword = false ∧ given sender = false
       ∧ has_attachments = None
       ∧ read_status ≠ lit "read" ∧ read_status ≠ lit "unread").
Proof.
  cbv zeta.
  pose proof (search_conditions_heads subject_keyword sender has_attachments
                read_status) as Hheads.
  assert (search_conditions subject_keyword sender has_attachments read_status
          = []
          ↔ given subject_keyword = false ∧ given sender = false
            ∧ has_attachments = None
            ∧ read_status ≠ lit "read" ∧ read_status ≠ lit "unread") as Hnil.
  { unfold search_conditions.
    destruct subject_keyword as [[| c1 t1] |], sender as [[| c2 t2] |],
      has_attachments as [[|] |]; repeat case_bool_decide; simpl;
      split; try done; try (intros (? & ? & ? & ? & ?); done). }
  unfold condition_str.
  destruct (search_conditions _ _ _ _) as [| condition conditions].
  - rewrite bool_decide_eq_false_2 by (by intros H). split; [done |].
    split; [intros _; by apply Hnil | done].
  - rewrite bool_decide_eq_true_2 by done.
    apply Forall_cons in Hheads as [[rest Hhead] _].
    assert (∃ c tail, join (lit " and ") (condition :: conditions) = c :: tail
                      ∧ c ≠ 0x74) as (c & tail & -> & Hc).
    { destruct Hhead as [-> | ->].
      - destruct (join_head (lit " and ") 0x6D rest conditions) as [tail ->].
        by eexists _, _.
      - destruct (join_head (lit " and ") 0x28 rest conditions) as [tail ->].
        by eexists _, _. }
    split; [done |]. split.
    + intros Heq. exfalso. apply Hc. by injection Heq.
    + intros Hoff. by apply Hnil in Hoff.
Qed.

End Conditions.

(** ** The further theorems at the inputs above *)

Import MoreExamples.

Lemma decorative_lines_are_skipped_witness :
  parse_lines ([line_A] ++ rule_line :: []) = parse_lines ([line_A] ++ []).
Proof.
  assert (decorative rule_line) as Hl by (right; left; vm_compute; reflexivity).
  exact (proj1 (decorative_lines_are_skipped [line_A] rule_line [] Hl)).
Defined.

Lemma no_record_lines_give_no_record_witness :
  parse_email_list (lit "Error: no such account") = [].
Proof.
  apply no_record_lines_give_no_record.
  apply Forall_singleton. split.
  - intros [H | H]; vm_compute in H; discriminate H.
  - intros H. unfold field_start, field_prefixes in H.
    rewrite !Exists_cons, Exists_nil in H.
    destruct H as [H | [H | [H | []]]]; vm_compute in H; discriminate H.
Defined.

Lemma repeated_field_last_wins_witness :
  parse_email_list (line_A ++ [LF] ++ lit "From: a" ++ [LF] ++ lit "From: b")
  = parse_lines ([line_A] ++ lit "From: b" :: []).
Proof.
  apply (repeated_field_last_wins _ [line_A] (lit "From: a") (lit "From: b") []
           (lit "From:") "sender").
  - vm_compute. reflexivity.
  - apply list_elem_of_here.
  - vm_compute. reflexivity.
  - vm_compute. reflexivity.
Defined.

Lemma success_after_timeouts_witness :
  execute env_retry (lit "s")
  = (Returned (strip (lit " ok ")),
     EvAcquire :: retries (lit "s") 1 ++ [EvInvoke (lit "s"); EvRelease]).
Proof.
  assert (1 < 3)%nat as Hk by lia.
  assert (∀ j, (j < 1)%nat →
            ∃ str_e, env_retry j = Raises (ExTimeoutExpired str_e)) as Hbefore.
  { intros [| j] Hj; [by eexists | lia]. }
  exact (success_after_timeouts (lit "s") env_retry 1 (lit " ok ") []
           Hk Hbefore eq_refl).
Defined.

Lemma some_call_can_always_run_witness :
  ∃ j o e s', step j o (spawn demo_scripts) = Some (e, s').
Proof.
  apply (some_call_can_always_run demo_scripts [] [] (spawn demo_scripts) 0
           (Ready (run_applescript (lit "count")))).
  - reflexivity.
  - reflexivity.
  - intros H. exact H.
Defined.

Lemma runs_are_bounded_witness :
  length demo_trace = length demo_sched
  ∧ (length demo_sched ≤ 10 * length demo_scripts)%nat.
Proof.
  apply (runs_are_bounded demo_scripts demo_sched demo_trace demo_final).
  vm_compute. reflexivity.
Defined.

Lemma escaped_quotes_follow_a_backslash_witness :
  escape_quotes (lit "plain") = lit "plain".
Proof.
  apply (proj2 (escaped_quotes_follow_a_backslash (lit "plain"))).
  compute_done.
Defined.

Lemma escape_quotes_is_injective_witness : quoted = quoted.
Proof. apply escape_quotes_is_injective. reflexivity. Defined.

Lemma escape_quotes_keeps_backslashes_witness :
  escape_quotes (quoted ++ [BACKSLASH]) = escape_quotes quoted ++ [BACKSLASH].
Proof.
  apply (proj2 (escape_quotes_keeps_backslashes quoted [] BACKSLASH)).
  compute_done.
Defined.

Lemma cleaned_keyword_of_a_thread_witness :
  cleaned_keyword (lit " budget ") = strip (lit " budget ").
Proof.
  apply (proj2 (proj2 (cleaned_keyword_of_a_thread (lit " budget ")))).
  compute_done.
Defined.

Lemma accounts_split_and_join_witness :
  (run env_accounts 0 list_accounts).1 = Ok [lit "Work"; lit "Home"].
Proof.
  apply (proj2 (accounts_split_and_join env_accounts
                  (lit "Work|Home" ++ [LF]) [] eq_refl)
           [lit "Work"; lit "Home"]).
  - repeat (apply Forall_cons_2; [compute_done |]). apply Forall_nil_2.
  - compute_done.
  - split.
    + exists [], [LF]. split; [reflexivity |].
      split; [apply Forall_nil_2 |].
      apply Forall_cons_2; [reflexivity | apply Forall_nil_2].
    + split; intros c H; vm_compute in H; injection H as <-; reflexivity.
Defined.

Lemma list_accounts_runs_one_call_witness :
  (run env_blank 0 list_accounts).1 = Ok [].
Proof.
  apply (proj2 (list_accounts_runs_one_call env_blank) (lit "  ") []).
  - reflexivity.
  - reflexivity.
Defined.

Lemma unread_counts_come_back_witness :
  (run env_counts 0 (get_unread_count int_ascii)).1
  = Ok (Some (<[lit "Home" := (-1)%Z]> (<[lit "Work" := 3%Z]> ∅))).
Proof.
  apply (unread_counts_come_back int_ascii env_counts
           (lit "Work:3|Home:ERROR" ++ [LF]) [] two_accounts eq_refl).
  - split.
    + exists [], [LF]. split; [reflexivity |].
      split; [apply Forall_nil_2 |].
      apply Forall_cons_2; [reflexivity | apply Forall_nil_2].
    + split; intros c H; vm_compute in H; injection H as <-; reflexivity.
  - repeat (apply Forall_cons_2; [split; compute_done |]). apply Forall_nil_2.
  - apply Forall_cons_2; [| apply Forall_cons_2; [| apply Forall_nil_2]].
    + intros n [= <-]. reflexivity.
    + intros n Hn. discriminate Hn.
Defined.


Lemma no_colon_no_count_witness : unread_counts int_ascii [] = Some ∅.
Proof. apply no_colon_no_count. apply not_elem_of_nil. Defined.
